(** * Snake: the game loop of [src/app/page.tsx], embedded and verified

    Grid coordinates, the score and the tick interval are JavaScript
    numbers that only ever hold integers: they are [Z].  Timestamps, the
    time accumulator, the grace timer and touch coordinates are fractional
    milliseconds or pixels: they are rationals, [Q], and sums, differences
    and products of them are exact.  The best score comes from storage and
    may be any finite number, so it is a [Q] too. *)

From Stdlib Require Import String Ascii.
From Stdlib Require Import ZArith QArith Qround Qminmax Qabs.
From Stdlib Require Import List Bool Lia Lqa.
Import ListNotations.

Local Open Scope Z_scope.

(** ** Vectors *)

Record Vec : Type := mkVec { x : Z; y : Z }.

Definition EQ (a b : Vec) : bool := (x a =? x b) && (y a =? y b).
Definition add (a b : Vec) : Vec := {| x := x a + x b; y := y a + y b |}.
Definition opposite (a b : Vec) : bool := (x a =? - x b) && (y a =? - y b).

Definition dirUp : Vec := {| x := 0; y := -1 |}.
Definition dirDown : Vec := {| x := 0; y := 1 |}.
Definition dirLeft : Vec := {| x := -1; y := 0 |}.
Definition dirRight : Vec := {| x := 1; y := 0 |}.

(** The four unit vectors, as a decidable predicate. *)
Definition isUnit (d : Vec) : bool :=
  EQ d dirUp || EQ d dirDown || EQ d dirLeft || EQ d dirRight.

(** ** The key table

    [DIRS] is an object literal used as a map from [KeyboardEvent.code] to a
    direction; order and duplicates play no role, an association list holds
    it.  [code in DIRS] also sees the names inherited from [Object.prototype]
    ([toString] and the like); none of them is a value of
    [KeyboardEvent.code], so the lookup is over the eight own keys. *)

Definition DIRS : list (string * Vec) :=
  [ ("ArrowUp"%string, dirUp); ("ArrowDown"%string, dirDown);
    ("ArrowLeft"%string, dirLeft); ("ArrowRight"%string, dirRight);
    ("KeyW"%string, dirUp); ("KeyS"%string, dirDown);
    ("KeyA"%string, dirLeft); ("KeyD"%string, dirRight) ].

Fixpoint lookup (code : string) (table : list (string * Vec)) : option Vec :=
  match table with
  | [] => None
  | (k, v) :: rest => if String.eqb code k then Some v else lookup code rest
  end.

Definition getDirForCode (code : string) : option Vec := lookup code DIRS.

(** ** Game state *)

Record GameState : Type := mkGameState {
  gridSize : Z;
  cell : Z;
  snake : list Vec;
  dir : Vec;
  nextDir : Vec;
  food : Vec;
  score : Z;
  tickMs : Z;
  grace : Q
}.

Definition set_cell (c : Z) (st : GameState) : GameState :=
  mkGameState (gridSize st) c (snake st) (dir st) (nextDir st) (food st)
              (score st) (tickMs st) (grace st).
Definition set_snake (s : list Vec) (st : GameState) : GameState :=
  mkGameState (gridSize st) (cell st) s (dir st) (nextDir st) (food st)
              (score st) (tickMs st) (grace st).
Definition set_dir (d : Vec) (st : GameState) : GameState :=
  mkGameState (gridSize st) (cell st) (snake st) d (nextDir st) (food st)
              (score st) (tickMs st) (grace st).
Definition set_nextDir (d : Vec) (st : GameState) : GameState :=
  mkGameState (gridSize st) (cell st) (snake st) (dir st) d (food st)
              (score st) (tickMs st) (grace st).
Definition set_food (f : Vec) (st : GameState) : GameState :=
  mkGameState (gridSize st) (cell st) (snake st) (dir st) (nextDir st) f
              (score st) (tickMs st) (grace st).
Definition set_score (n : Z) (st : GameState) : GameState :=
  mkGameState (gridSize st) (cell st) (snake st) (dir st) (nextDir st) (food st)
              n (tickMs st) (grace st).
Definition set_tickMs (t : Z) (st : GameState) : GameState :=
  mkGameState (gridSize st) (cell st) (snake st) (dir st) (nextDir st) (food st)
              (score st) t (grace st).
Definition set_grace (g : Q) (st : GameState) : GameState :=
  mkGameState (gridSize st) (cell st) (snake st) (dir st) (nextDir st) (food st)
              (score st) (tickMs st) g.

(** ** The page: the component's refs and React state

    [running], [gameOver] and [best] are React state; a setter is modelled
    as taking effect at once (the loop leaves by [break] right after it
    calls one, so nothing in the same frame reads the old value).  The
    displayed score, set by [setScore], is a copy of [st.score] that nothing
    reads back, and is left out.  [drawn] counts the values [Math.random]
    has handed out so far. *)

Record Page : Type := mkPage {
  stateRef : option GameState;
  running : bool;
  gameOver : bool;
  best : Q;
  lastTsRef : Q;
  accRef : Q;
  gameOverAtRef : option Q;
  touchStartRef : option (Q * Q);
  drawn : nat
}.

Definition set_stateRef (s : option GameState) (p : Page) : Page :=
  mkPage s (running p) (gameOver p) (best p) (lastTsRef p) (accRef p)
         (gameOverAtRef p) (touchStartRef p) (drawn p).
Definition set_running (b : bool) (p : Page) : Page :=
  mkPage (stateRef p) b (gameOver p) (best p) (lastTsRef p) (accRef p)
         (gameOverAtRef p) (touchStartRef p) (drawn p).
Definition set_gameOver (b : bool) (p : Page) : Page :=
  mkPage (stateRef p) (running p) b (best p) (lastTsRef p) (accRef p)
         (gameOverAtRef p) (touchStartRef p) (drawn p).
Definition set_best (b : Q) (p : Page) : Page :=
  mkPage (stateRef p) (running p) (gameOver p) b (lastTsRef p) (accRef p)
         (gameOverAtRef p) (touchStartRef p) (drawn p).
Definition set_lastTsRef (t : Q) (p : Page) : Page :=
  mkPage (stateRef p) (running p) (gameOver p) (best p) t (accRef p)
         (gameOverAtRef p) (touchStartRef p) (drawn p).
Definition set_accRef (a : Q) (p : Page) : Page :=
  mkPage (stateRef p) (running p) (gameOver p) (best p) (lastTsRef p) a
         (gameOverAtRef p) (touchStartRef p) (drawn p).
Definition set_gameOverAtRef (t : option Q) (p : Page) : Page :=
  mkPage (stateRef p) (running p) (gameOver p) (best p) (lastTsRef p) (accRef p)
         t (touchStartRef p) (drawn p).
Definition set_touchStartRef (t : option (Q * Q)) (p : Page) : Page :=
  mkPage (stateRef p) (running p) (gameOver p) (best p) (lastTsRef p) (accRef p)
         (gameOverAtRef p) t (drawn p).
Definition set_drawn (n : nat) (p : Page) : Page :=
  mkPage (stateRef p) (running p) (gameOver p) (best p) (lastTsRef p) (accRef p)
         (gameOverAtRef p) (touchStartRef p) n.

(** ** Input handlers *)

(** [onKey]: an unrecognised code and a missing state are no-ops.  The
    pending direction is guarded by [opposite]; the assignment to [grace] is
    the next statement, outside the [if]. *)
Definition onKey (code : string) (p : Page) : Page :=
  match getDirForCode code with
  | None => p
  | Some d =>
      match stateRef p with
      | None => p
      | Some st =>
          let st1 := if negb (opposite d (dir st)) then set_nextDir d st else st in
          set_stateRef (Some (set_grace 250%Q st1)) p
      end
  end.

Definition handleTouchStart (touch : option (Q * Q)) (p : Page) : Page :=
  match touch with
  | None => p
  | Some t => set_touchStartRef (Some t) p
  end.

Definition minSwipeDistance : Q := 30%Q.

(** The direction a swipe of displacement [(deltaX, deltaY)] is classified
    as, [None] below the minimum distance. *)
Definition swipeDirection (deltaX deltaY : Q) : option Vec :=
  let absX := Qabs deltaX in
  let absY := Qabs deltaY in
  if negb (Qle_bool minSwipeDistance (Qmax absX absY)) then None
  else if negb (Qle_bool absX absY)
       then Some (if negb (Qle_bool deltaX 0) then dirRight else dirLeft)
       else Some (if negb (Qle_bool deltaY 0) then dirDown else dirUp).

(** [handleTouchEnd]: [touch] is [e.changedTouches[0]]. *)
Definition handleTouchEnd (touch : option (Q * Q)) (p : Page) : Page :=
  match touchStartRef p with
  | None => p
  | Some start =>
      match touch with
      | None => p
      | Some t =>
          let deltaX := (fst t - fst start)%Q in
          let deltaY := (snd t - snd start)%Q in
          match swipeDirection deltaX deltaY with
          | None => set_touchStartRef None p
          | Some direction =>
              let p1 :=
                match stateRef p with
                | Some st =>
                    if negb (opposite direction (dir st))
                    then set_stateRef
                           (Some (set_grace 250%Q (set_nextDir direction st))) p
                    else p
                | None => p
                end in
              set_touchStartRef None p1
          end
      end
  end.

(** ** Running a call

    A call of the program returns, throws (reading [x] of [undefined]), or
    is still running when the model's fuel is spent. *)

Inductive Run (A : Type) : Type :=
| Ret (a : A)
| Throws
| OutOfFuel.
Arguments Ret {A} a.
Arguments Throws {A}.
Arguments OutOfFuel {A}.

Definition bind {A B : Type} (m : Run A) (k : A -> Run B) : Run B :=
  match m with
  | Ret a => k a
  | Throws => Throws
  | OutOfFuel => OutOfFuel
  end.

Notation "x <- m ;; k" := (bind m (fun x => k))
  (at level 61, m at next level, right associativity).
Notation "' pat <- m ;; k" := (bind m (fun x => match x with pat => k end))
  (at level 61, pat pattern, m at next level, right associativity).

(** How the loop body leaves: on to the loop test, or out by [break]. *)
Inductive Ctl : Type := Next | Break.

(** The tick interval after the score has become [score]. *)
Definition speed (score : Z) : Z := 170 - (170 - 80) * Z.min score 30 / 30.

Definition hitWall (gridSize : Z) (newHead : Vec) : bool :=
  (x newHead <? 0) || (y newHead <? 0) ||
  (x newHead >=? gridSize) || (y newHead >=? gridSize).

Definition hitSelf (snake : list Vec) (newHead : Vec) : bool :=
  existsb (fun s => EQ s newHead) snake.

(** A cell of the [n] by [n] grid. *)
Definition inGrid (n : Z) (c : Vec) : Prop := 0 <= x c < n /\ 0 <= y c < n.

(** The direction-commit statement at the head of the loop body. *)
Definition commitDir (st : GameState) : GameState :=
  if negb (opposite (nextDir st) (dir st)) then set_dir (nextDir st) st else st.

Section Game.

(** [random i] is the [i]-th value [Math.random] returns. *)
Variable random : nat -> Q.

(** The cell one pass of [randFood]'s loop draws: [x] first, then [y].  The
    product is exact here; the product of doubles rounds, which can move a
    draw to the next cell but not out of the range [0, gridSize). *)
Definition sample (gridSize : Z) (i : nat) : Vec :=
  {| x := Qfloor (random i * inject_Z gridSize);
     y := Qfloor (random (S i) * inject_Z gridSize) |}.

(** [randFood]: rejection sampling; [fuel] bounds the passes of
    [while (true)], [i] is the number of values drawn before the call, and
    the result carries the number drawn after it. *)
Fixpoint randFood (fuel : nat) (gridSize : Z) (snake : list Vec) (i : nat)
  : Run (Vec * nat) :=
  match fuel with
  | O => OutOfFuel
  | S fuel' =>
      let f := sample gridSize i in
      if negb (existsb (fun s => EQ s f) snake) then Ret (f, S (S i))
      else randFood fuel' gridSize snake (S (S i))
  end.

(** One pass of the body of [while (accRef.current >= st.tickMs)]: one
    simulation tick.  [now] is what [performance.now()] would return. *)
Definition tick (fuel : nat) (now : Q) (p : Page) (st : GameState)
  : Run (Page * GameState * Ctl) :=
  let p := set_accRef (accRef p - inject_Z (tickMs st))%Q p in
  let st := commitDir st in
  match snake st with
  | [] => Throws
  | head :: _ =>
      let newHead := add head (dir st) in
      let wall := hitWall (gridSize st) newHead in
      let self := hitSelf (snake st) newHead in
      if (wall || self) && Qle_bool (grace st) 0 then
        Ret (set_gameOverAtRef (Some now)
               (set_best (Qmax (best p) (inject_Z (score st)))
                  (set_running false (set_gameOver true p))),
             st, Break)
      else if wall || self then
        Ret (p, set_grace 0%Q st, Break)
      else
        let st := set_snake (newHead :: snake st) st in
        if EQ newHead (food st) then
          let st := set_score (score st + 1) st in
          '(f, i) <- randFood fuel (gridSize st) (snake st) (drawn p) ;;
          Ret (set_drawn i p,
               set_tickMs (speed (score st)) (set_food f st), Next)
        else
          Ret (p, set_snake (removelast (snake st)) st, Next)
  end.

(** The catch-up loop; [fuel] bounds its passes. *)
Fixpoint loop (fuel : nat) (now : Q) (p : Page) (st : GameState)
  : Run (Page * GameState) :=
  if Qle_bool (inject_Z (tickMs st)) (accRef p) then
    match fuel with
    | O => OutOfFuel
    | S fuel' =>
        '(p', st', ctl) <- tick fuel' now p st ;;
        match ctl with
        | Next => loop fuel' now p' st'
        | Break => Ret (p', st')
        end
    end
  else Ret (p, st).

(** [step], the frame callback.  [ctx] says whether the canvas has a 2D
    context; drawing changes no state and is left out. *)
Definition step (fuel : nat) (ts now : Q) (ctx : bool) (p : Page) : Run Page :=
  match stateRef p with
  | None => Ret p
  | Some st =>
      if negb ctx then Ret p
      else
        let dt := if Qeq_bool (lastTsRef p) 0 then 0%Q
                  else (ts - lastTsRef p)%Q in
        let p := set_lastTsRef ts p in
        if running p && negb (gameOver p) then
          let p := set_accRef (accRef p + dt)%Q p in
          let st := set_grace (Qmax 0 (grace st - dt)) st in
          '(p', st') <- loop fuel now p st ;;
          Ret (set_stateRef (Some st') p')
        else Ret p
  end.

(** [resizeCanvas], as far as the game state goes: [target] is the parent's
    [clientWidth].  ([gridSize] is 14 in every state the program builds, so
    the floor of the quotient is [Z.div].) *)
Definition resizeCanvas (target : Z) (p : Page) : Page :=
  match stateRef p with
  | None => p
  | Some st => set_stateRef (Some (set_cell (Z.max 8 (target / gridSize st)) st)) p
  end.

(** [reset]: the canvas is mounted, and [clientWidth] and [clientHeight]
    are its sizes after the resize. *)
Definition reset (fuel : nat) (target clientWidth clientHeight : Z) (p : Page)
  : Run Page :=
  let gridSize := 14 in
  let snake := [ {| x := gridSize / 2; y := gridSize / 2 |};
                 {| x := gridSize / 2 - 1; y := gridSize / 2 |} ] in
  let dir := {| x := 1; y := 0 |} in
  let p := resizeCanvas target p in
  let cssSize := Z.min clientWidth clientHeight in
  let cell := Z.max 8 (cssSize / gridSize) in
  '(food, i) <- randFood fuel gridSize snake (drawn p) ;;
  Ret (set_gameOverAtRef None
         (set_gameOver false
            (set_drawn i
               (set_stateRef
                  (Some {| gridSize := gridSize; cell := cell; snake := snake;
                           dir := dir; nextDir := dir; food := food;
                           score := 0; tickMs := 170; grace := 0%Q |}) p)))).

(** The mount effect and the restart timer both run [reset(); setRunning(true)]. *)
Definition start (fuel : nat) (target clientWidth clientHeight : Z) (p : Page)
  : Run Page :=
  p' <- reset fuel target clientWidth clientHeight p ;;
  Ret (set_running true p').

(** What can happen to the page.  [RestartTimer] is the timer armed on game
    over firing, 2000 ms later. *)
Inductive Event : Type :=
| Mount (target clientWidth clientHeight : Z)
| RestartTimer (target clientWidth clientHeight : Z)
| Resize (target : Z)
| KeyDown (code : string)
| TouchStart (touch : option (Q * Q))
| TouchEnd (touch : option (Q * Q))
| Frame (ts now : Q) (ctx : bool).

Definition handle (fuel : nat) (e : Event) (p : Page) : Run Page :=
  match e with
  | Mount t w h => start fuel t w h (resizeCanvas t p)
  | RestartTimer t w h => start fuel t w h p
  | Resize t => Ret (resizeCanvas t p)
  | KeyDown code => Ret (onKey code p)
  | TouchStart t => Ret (handleTouchStart t p)
  | TouchEnd t => Ret (handleTouchEnd t p)
  | Frame ts now ctx => step fuel ts now ctx p
  end.

(** The page before the mount effect has run; [best0] is the best score
    read from storage and [n] the number of random values drawn so far. *)
Definition initialPage (best0 : Q) (n : nat) : Page :=
  {| stateRef := None; running := false; gameOver := false; best := best0;
     lastTsRef := 0%Q; accRef := 0%Q; gameOverAtRef := None;
     touchStartRef := None; drawn := n |}.

Inductive reachable : Page -> Prop :=
| reach_init : forall best0 n, reachable (initialPage best0 n)
| reach_event : forall p fuel e p',
    reachable p -> handle fuel e p = Ret p' -> reachable p'.

(** [Math.random] returns values in [0, 1). *)
Definition inRange : Prop := forall i, (0 <= random i /\ random i < 1)%Q.

(** From position [i] on, the source draws every cell of the grid at some
    pass of the sampling loop. *)
Definition Fair (gridSize : Z) (i : nat) : Prop :=
  forall c, inGrid gridSize c ->
  exists k, sample gridSize (i + 2 * k) = c.

End Game.

(** ** The best score read at startup

    A JavaScript number is not-a-number, an infinity, or finite.  A finite
    value is kept as the exact rational it stands for; JavaScript rounds it
    to the nearest double, which changes no integer below 2^53 and never
    turns a finite value into an infinite one or back below the overflow
    bound used in [roundOverflow]. *)
Inductive JSNumber : Type :=
| NaN
| Infinity (negative : bool)
| Finite (q : Q).

Definition isFinite (v : JSNumber) : bool :=
  match v with
  | Finite _ => true
  | _ => false
  end.

(** Decimal literals at or beyond 2^1024 - 2^970 round to an infinity. *)
Definition overflowBound : Z := 2 ^ 1024 - 2 ^ 970.

Definition roundOverflow (q : Q) : JSNumber :=
  if Qle_bool (inject_Z overflowBound) (Qabs q)
  then Infinity (negb (Qle_bool 0 q))
  else Finite q.

(** White space and line terminators, as far as ASCII goes. *)
Definition isWhiteSpace (c : ascii) : bool :=
  let n := nat_of_ascii c in
  ((9 <=? n) && (n <=? 13))%nat || (n =? 32)%nat.

Fixpoint trimStart (s : list ascii) : list ascii :=
  match s with
  | [] => []
  | c :: rest => if isWhiteSpace c then trimStart rest else s
  end.

Definition trim (s : list ascii) : list ascii :=
  rev (trimStart (rev (trimStart s))).

(** The value of [c] as a digit, up to hexadecimal. *)
Definition digitValue (c : ascii) : option Z :=
  let n := Z.of_nat (nat_of_ascii c) in
  if (48 <=? n) && (n <=? 57) then Some (n - 48)
  else if (97 <=? n) && (n <=? 102) then Some (n - 87)
  else if (65 <=? n) && (n <=? 70) then Some (n - 55)
  else None.

(** The longest prefix of digits below [radix]: its value on top of [acc],
    how many digits it has, and the rest of the text. *)
Fixpoint digits (radix acc : Z) (count : nat) (s : list ascii)
  : Z * nat * list ascii :=
  match s with
  | [] => (acc, count, [])
  | c :: rest =>
      match digitValue c with
      | Some d => if d <? radix then digits radix (radix * acc + d) (S count) rest
                  else (acc, count, s)
      | None => (acc, count, s)
      end
  end.

(** A text that is digits of [radix] throughout, and not empty. *)
Definition radixLiteral (radix : Z) (s : list ascii) : JSNumber :=
  match digits radix 0 0 s with
  | (v, S _, []) => roundOverflow (inject_Z v)
  | _ => NaN
  end.

(** An optional sign: the sign and the rest. *)
Definition signOf (s : list ascii) : bool * list ascii :=
  match s with
  | "-"%char :: rest => (true, rest)
  | "+"%char :: rest => (false, rest)
  | _ => (false, s)
  end.

(** The exponent part, when the text has one and nothing after it. *)
Definition exponentPart (s : list ascii) : option Z :=
  match s with
  | [] => Some 0
  | c :: rest =>
      if (Ascii.eqb c "e" || Ascii.eqb c "E")%bool then
        let (neg, rest') := signOf rest in
        match digits 10 0 0 rest' with
        | (e, S _, []) => Some (if neg then - e else e)
        | _ => None
        end
      else None
  end.

(** An unsigned decimal literal: digits, a fraction, an exponent. *)
Definition unsignedDecimal (s : list ascii) : option Q :=
  let '(ip, ni, rest) := digits 10 0 0 s in
  let '(mant, nf, rest') :=
    match rest with
    | "."%char :: frac => digits 10 ip 0 frac
    | _ => (ip, O, rest)
    end in
  match (ni + nf)%nat with
  | O => None
  | S _ =>
      match exponentPart rest' with
      | Some e => Some (inject_Z mant * Qpower 10 (e - Z.of_nat nf))%Q
      | None => None
      end
  end.

(** [Number(s)] for a string [s]: the StringToNumber of ECMAScript. *)
Definition stringToNumber (s : string) : JSNumber :=
  match trim (list_ascii_of_string s) with
  | [] => Finite 0
  | "0"%char :: r :: rest =>
      if (Ascii.eqb r "x" || Ascii.eqb r "X")%bool then radixLiteral 16 rest
      else if (Ascii.eqb r "o" || Ascii.eqb r "O")%bool then radixLiteral 8 rest
      else if (Ascii.eqb r "b" || Ascii.eqb r "B")%bool then radixLiteral 2 rest
      else match unsignedDecimal ("0"%char :: r :: rest) with
           | Some q => roundOverflow q
           | None => NaN
           end
  | body =>
      let (neg, rest) := signOf body in
      if list_eq_dec ascii_dec rest (list_ascii_of_string "Infinity")
      then Infinity neg
      else match unsignedDecimal rest with
           | Some q => roundOverflow (if neg then - q else q)%Q
           | None => NaN
           end
  end.

(** [Number(v)] for what [getItem] returns: [null] converts to 0. *)
Definition Number (v : option string) : JSNumber :=
  match v with
  | None => Finite 0
  | Some s => stringToNumber s
  end.

(** [localStorage], as [getItem] sees it. *)
Definition Storage : Type := string -> option string.

(** The initial value of [best] in [useBestScore]: [window] is [None] when
    there is no [window], and otherwise holds [localStorage]. *)
Definition initialBest (window : option Storage) (key : string) : JSNumber :=
  match window with
  | None => Finite 0
  | Some localStorage =>
      let v := Number (localStorage key) in
      if isFinite v then v else Finite 0
  end.

(** ** Writing the best score back

    The effect of [useBestScore] stores [String(best)].  For an integer of
    magnitude below 10^21, which is what the game produces, that text is
    the decimal numeral, with a minus sign for a negative one. *)






(** ** Canvas sizing and drawing *)

Definition clamp (n min max : Q) : Q := Qmax min (Qmin max n).

(** [window.devicePixelRatio || 1]: [None] stands for a ratio that is
    missing or not a number; like 0, it gives 1. *)
Definition ratioOr1 (devicePixelRatio : option Q) : Q :=
  match devicePixelRatio with
  | Some r => if Qeq_bool r 0 then 1%Q else r
  | None => 1%Q
  end.

(** What [resizeCanvas] gives the canvas: the cell size, the CSS size of a
    side and the pixel size of a side. *)
Record Layout : Type := mkLayout {
  layoutCell : Z;
  cssSize : Z;
  pixelSize : Z
}.

Definition canvasLayout (target : Z) (devicePixelRatio : option Q) (p : Page)
  : Layout :=
  let gridSize := match stateRef p with
                  | Some st => gridSize st
                  | None => 14
                  end in
  let cell := Z.max 8 (target / gridSize) in
  let cssSize := cell * gridSize in
  let dpr := clamp (ratioOr1 devicePixelRatio) 1 2 in
  {| layoutCell := cell; cssSize := cssSize;
     pixelSize := Qfloor (inject_Z cssSize * dpr) |}.

(** [draw]: the scale of segment [i] of the snake. *)
Definition segmentScale (gameOver : bool) (gameOverAt : option Q) (now : Q)
           (i : nat) : Q :=
  match gameOver, gameOverAt with
  | true, Some since =>
      let elapsed := (now - since)%Q in
      let t := Qmax 0 (Qmin 1 ((elapsed - inject_Z (Z.of_nat i) * 60) / 300)) in
      (1 - t)%Q
  | _, _ => 1%Q
  end.

(** [draw]: the rectangle of a segment: left, top, width, height. *)
Definition segmentRect (cell : Z) (s : Vec) (scale : Q) : Q * Q * Q * Q :=
  let cx := (inject_Z (x s) * inject_Z cell + inject_Z cell / 2)%Q in
  let cy := (inject_Z (y s) * inject_Z cell + inject_Z cell / 2)%Q in
  let w := (Qmax 0 (inject_Z cell - 3) * scale)%Q in
  let h := (Qmax 0 (inject_Z cell - 3) * scale)%Q in
  ((cx - w / 2)%Q, (cy - h / 2)%Q, w, h).

(** [roundRect]: the corner radius used for a [w] by [h] rectangle. *)
Definition cornerRadius (w h r : Q) : Q :=
  Qmax 0 (Qmin r (Qmin (w / 2) (h / 2))).

(** ** Sequences of events *)

(** The handlers run one after the other, as the browser calls them. *)
Fixpoint handleAll (random : nat -> Q) (fuel : nat) (es : list Event)
         (p : Page) : Run Page :=
  match es with
  | [] => Ret p
  | e :: rest => p' <- handle random fuel e p ;; handleAll random fuel rest p'
  end.

(** The events that run [reset(); setRunning(true)]. *)
Definition starts (e : Event) : bool :=
  match e with
  | Mount _ _ _ | RestartTimer _ _ _ => true
  | _ => false
  end.

(** * Predicates of the specification *)

(** The candidate head of a tick: the head moved by the committed
    direction; [None] when the snake has no cell. *)
Definition candidate (st : GameState) : option Vec :=
  match snake st with
  | [] => None
  | head :: _ => Some (add head (dir (commitDir st)))
  end.

(** The collision test of a tick, on the snake as it is before the move. *)
Definition collides (st : GameState) (newHead : Vec) : bool :=
  hitWall (gridSize st) newHead || hitSelf (snake st) newHead.

(** The page after the game-over branch has run on [p]. *)
Definition gameOverPage (now : Q) (sc : Z) (p : Page) : Page :=
  set_gameOverAtRef (Some now)
    (set_best (Qmax (best p) (inject_Z sc))
       (set_running false (set_gameOver true p))).

(** The page once the tick has taken its interval off the accumulator. *)
Definition spend (st : GameState) (p : Page) : Page :=
  set_accRef (accRef p - inject_Z (tickMs st))%Q p.

(** The state after the growth branch has run with [f] as the new food. *)
Definition grown (nh f : Vec) (st : GameState) : GameState :=
  set_tickMs (speed (score st + 1))
    (set_food f
       (set_score (score st + 1)
          (set_snake (nh :: snake st) (commitDir st)))).

(** The loop body as a relation: the four ways a tick ends. *)
Inductive Ticks (random : nat -> Q) (now : Q) (p : Page) (st : GameState)
  : Page -> GameState -> Ctl -> Prop :=
| Ticks_over : forall nh,
    candidate st = Some nh -> collides st nh = true ->
    Qle_bool (grace st) 0 = true ->
    Ticks random now p st
          (gameOverPage now (score st) (spend st p)) (commitDir st) Break
| Ticks_graced : forall nh,
    candidate st = Some nh -> collides st nh = true ->
    Qle_bool (grace st) 0 = false ->
    Ticks random now p st (spend st p) (set_grace 0%Q (commitDir st)) Break
| Ticks_move : forall nh,
    candidate st = Some nh -> collides st nh = false -> nh <> food st ->
    Ticks random now p st (spend st p)
          (set_snake (nh :: removelast (snake st)) (commitDir st)) Next
| Ticks_eat : forall nh fuel f i,
    candidate st = Some nh -> collides st nh = false -> nh = food st ->
    randFood random fuel (gridSize st) (nh :: snake st) (drawn p) = Ret (f, i) ->
    Ticks random now p st (set_drawn i (spend st p)) (grown nh f st) Next.

(** The grid's cells, row by row: cell [k] is [(k mod n, k / n)]. *)
Definition cells (gridSize : Z) : list Vec :=
  let n := Z.to_nat gridSize in
  map (fun k => {| x := Z.of_nat (k mod n); y := Z.of_nat (k / n) |})
      (seq 0 (n * n)).

(** The cells of the grid the snake occupies. *)
Definition occupied (gridSize : Z) (snake : list Vec) : list Vec :=
  filter (hitSelf snake) (cells gridSize).

Definition initialSnake : list Vec :=
  [ {| x := 7; y := 7 |}; {| x := 6; y := 7 |} ].

(** The invariant of the claim. *)
Definition Inv (st : GameState) : Prop :=
  Forall (inGrid (gridSize st)) (snake st) /\
  NoDup (snake st) /\
  (2 <= length (snake st))%nat /\
  isUnit (dir st) = true.

(** What makes it inductive: the pending direction is a unit vector too. *)
Definition StrongInv (st : GameState) : Prop :=
  Inv st /\ isUnit (nextDir st) = true.

(** The food is a cell of the grid that is not a cell of the snake. *)
Definition FoodInv (st : GameState) : Prop :=
  gridSize st = 14 /\
  inGrid (gridSize st) (food st) /\ ~ In (food st) (snake st).

(** The numbers of the state: the score counts up from 0, the tick interval
    is the speed curve at the score, the grace timer is never negative. *)
Definition Tuned (st : GameState) : Prop :=
  0 <= score st /\ tickMs st = speed (score st) /\ (0 <= grace st)%Q.

(** [P] holds of the game state of the page, when it has one. *)
Definition pageInv (P : GameState -> Prop) (p : Page) : Prop :=
  forall st, stateRef p = Some st -> P st.

(** The state [reset] builds, for the cell size [c] and the food [f]. *)
Definition resetState (c : Z) (f : Vec) : GameState :=
  {| gridSize := 14; cell := c; snake := initialSnake;
     dir := {| x := 1; y := 0 |}; nextDir := {| x := 1; y := 0 |};
     food := f; score := 0; tickMs := 170; grace := 0%Q |}.

(** A non-negative integer, as a JavaScript number. *)
Definition nonNegativeInteger (v : JSNumber) : Prop :=
  exists n : Z, 0 <= n /\ exists q, v = Finite q /\ (q == inject_Z n)%Q.



(** Two cells side by side. *)
Definition adjacent (a b : Vec) : Prop :=
  Z.abs (x a - x b) + Z.abs (y a - y b) = 1.

(** Every cell of the list is next to the one after it. *)
Fixpoint Chain (l : list Vec) : Prop :=
  match l with
  | a :: (b :: _) as rest => adjacent a b /\ Chain rest
  | _ => True
  end.

(** The cells between the head and the wall it is heading for. *)
Definition ahead (st : GameState) : Z :=
  match snake st with
  | [] => 0
  | h :: _ =>
      let d := dir (commitDir st) in
      if x d =? 1 then gridSize st - 1 - x h
      else if x d =? -1 then x h
      else if y d =? 1 then gridSize st - 1 - y h
      else y h
  end.

(** The fields of the game state that input never writes. *)
Definition sameBoard (st st' : GameState) : Prop :=
  gridSize st' = gridSize st /\ cell st' = cell st /\ snake st' = snake st /\
  dir st' = dir st /\ food st' = food st /\ score st' = score st /\
  tickMs st' = tickMs st.

(** The fields of the page that input never writes. *)
Definition samePage (p p' : Page) : Prop :=
  running p' = running p /\ gameOver p' = gameOver p /\ best p' = best p /\
  lastTsRef p' = lastTsRef p /\ accRef p' = accRef p /\
  gameOverAtRef p' = gameOverAtRef p /\ drawn p' = drawn p.

(** The flags of the page agree: a game that is over is not running and has
    its time of death, and only such a game has one; the best score is then
    at least the score. *)
Definition Settled (p : Page) : Prop :=
  (gameOver p = true -> running p = false) /\
  (gameOver p = true <-> gameOverAtRef p <> None) /\
  (forall st, stateRef p = Some st -> gameOver p = true ->
              (inject_Z (score st) <= best p)%Q).

(** What is left alone while the game is over: the flags, the best score,
    the accumulator, the time of death, the random source, and of the game
    state the grid, the snake, the current direction, the food, the score
    and the tick interval. *)
Definition waits (p p' : Page) : Prop :=
  running p' = running p /\ gameOver p' = gameOver p /\ best p' = best p /\
  accRef p' = accRef p /\ gameOverAtRef p' = gameOverAtRef p /\
  drawn p' = drawn p /\
  (stateRef p = None -> stateRef p' = None) /\
  (forall st, stateRef p = Some st ->
              exists st', stateRef p' = Some st' /\
                          gridSize st' = gridSize st /\ snake st' = snake st /\
                          dir st' = dir st /\ food st' = food st /\
                          score st' = score st /\ tickMs st' = tickMs st).

(** * Concrete data for the examples *)

(** ** A concrete random source

    It sweeps the 14 by 14 grid row by row: pass [k] of the sampling loop
    draws the cell [(k mod 14, (k / 14) mod 14)]. *)
Definition sweep (j : nat) : Q :=
  let k := (j / 2)%nat in
  if Nat.even j then Z.of_nat (k mod 14) # 14
  else Z.of_nat ((k / 14) mod 14) # 14.

(** The state right after a reset, with food at [(10, 3)]. *)
Definition freshState : GameState :=
  {| gridSize := 14; cell := 20;
     snake := [ {| x := 7; y := 7 |}; {| x := 6; y := 7 |} ];
     dir := dirRight; nextDir := dirRight; food := {| x := 10; y := 3 |};
     score := 0; tickMs := 170; grace := 0%Q |}.

Definition freshPage : Page :=
  {| stateRef := Some freshState; running := true; gameOver := false;
     best := 0%Q; lastTsRef := 0%Q; accRef := 0%Q; gameOverAtRef := None;
     touchStartRef := None; drawn := 0 |}.

(** The snake about to leave the grid on the left: score 3, best 2. *)
Definition wallState : GameState :=
  {| gridSize := 14; cell := 20;
     snake := [ {| x := 0; y := 7 |}; {| x := 1; y := 7 |} ];
     dir := dirLeft; nextDir := dirLeft; food := {| x := 10; y := 3 |};
     score := 3; tickMs := 161; grace := 0%Q |}.

Definition wallPage : Page :=
  {| stateRef := Some wallState; running := true; gameOver := false;
     best := 2%Q; lastTsRef := 1000%Q; accRef := 170%Q; gameOverAtRef := None;
     touchStartRef := None; drawn := 0 |}.

(** The snake turned onto its own neck, 120 ms of grace left. *)
Definition neckState : GameState :=
  {| gridSize := 14; cell := 20;
     snake := [ {| x := 7; y := 7 |}; {| x := 6; y := 7 |} ];
     dir := dirUp; nextDir := dirLeft; food := {| x := 10; y := 3 |};
     score := 0; tickMs := 170; grace := 120%Q |}.

Definition neckPage : Page :=
  {| stateRef := Some neckState; running := true; gameOver := false;
     best := 2%Q; lastTsRef := 1000%Q; accRef := 170%Q; gameOverAtRef := None;
     touchStartRef := None; drawn := 0 |}.

(** A snake curled in a square, its head next to its last cell. *)
Definition curledState : GameState :=
  {| gridSize := 14; cell := 20;
     snake := [ {| x := 1; y := 1 |}; {| x := 1; y := 0 |};
                {| x := 0; y := 0 |}; {| x := 0; y := 1 |} ];
     dir := dirDown; nextDir := dirLeft; food := {| x := 10; y := 3 |};
     score := 2; tickMs := 164; grace := 0%Q |}.

(** The fresh state with the food right ahead of the head. *)
Definition foodAheadState : GameState := set_food {| x := 8; y := 7 |} freshState.

(** A short game on the sweeping source: mount, a first frame, a frame 200
    ms later (one tick), the up key, and a frame 200 ms later again. *)
Definition shortGame : list Event :=
  [ Mount 300 280 280; Frame 16 16 true; Frame 216 216 true;
    KeyDown "ArrowUp"; Frame 416 416 true ].

Fixpoint play (fuel : nat) (es : list Event) (p : Page) : Run Page :=
  match es with
  | [] => Ret p
  | e :: rest => p' <- handle sweep fuel e p ;; play fuel rest p'
  end.

Definition shortGameState : GameState :=
  {| gridSize := 14; cell := 20;
     snake := [ {| x := 8; y := 6 |}; {| x := 8; y := 7 |} ];
     dir := dirUp; nextDir := dirUp; food := {| x := 0; y := 0 |};
     score := 0; tickMs := 170; grace := 50%Q |}.

(** A storage whose slot [key] holds [text]. *)
Definition slot (key text : string) : Storage :=
  fun k => if String.eqb k key then Some text else None.

(** The page after the mount and a first frame on the sweeping source. *)
Definition mountedPage : Page :=
  {| stateRef := Some (set_food {| x := 0; y := 0 |} freshState);
     running := true; gameOver := false;
     best := 0%Q; lastTsRef := 16%Q; accRef := 0%Q; gameOverAtRef := None;
     touchStartRef := None; drawn := 2 |}.

(** The short game just before its last frame: one move made, the up key
    pressed. *)
Definition turnedState : GameState :=
  {| gridSize := 14; cell := 20;
     snake := [ {| x := 8; y := 7 |}; {| x := 7; y := 7 |} ];
     dir := dirRight; nextDir := dirUp; food := {| x := 0; y := 0 |};
     score := 0; tickMs := 170; grace := 250%Q |}.

Definition turnedPage : Page :=
  {| stateRef := Some turnedState; running := true; gameOver := false;
     best := 0%Q; lastTsRef := 216%Q; accRef := 30%Q; gameOverAtRef := None;
     touchStartRef := None; drawn := 2 |}.

(** A game in which the snake eats: up to the top row in one long frame,
    then left along it to the food at [(0, 0)]. *)
Definition eatingGame : list Event :=
  [ Mount 300 280 280; Frame 16 16 true; KeyDown "ArrowUp";
    Frame 1206 1206 true; KeyDown "ArrowLeft"; Frame 2396 2396 true ].

Definition fedState : GameState :=
  {| gridSize := 14; cell := 20;
     snake := [ {| x := 0; y := 0 |}; {| x := 1; y := 0 |};
                {| x := 2; y := 0 |} ];
     dir := dirLeft; nextDir := dirLeft; food := {| x := 3; y := 0 |};
     score := 1; tickMs := 167; grace := 0%Q |}.

Definition fedPage : Page :=
  {| stateRef := Some fedState; running := true; gameOver := false;
     best := 0%Q; lastTsRef := 2396%Q; accRef := 0%Q; gameOverAtRef := None;
     touchStartRef := None; drawn := 8 |}.

(** The fed snake has met the left wall in a frame 604 ms late: the game
    is over with 437 ms left in the accumulator. *)
Definition deadPage : Page :=
  {| stateRef := Some fedState; running := false; gameOver := true;
     best := 1%Q; lastTsRef := 3000%Q; accRef := 437%Q;
     gameOverAtRef := Some 3010%Q; touchStartRef := None; drawn := 8 |}.

(** * Properties *)

(** ** Vectors and the collision test *)

Lemma EQ_eq (a b : Vec) : EQ a b = true <-> a = b.
Proof.
  destruct a as [ax ay], b as [bx by_]; unfold EQ; simpl.
  rewrite andb_true_iff, !Z.eqb_eq. split.
  - intros [-> ->]; reflexivity.
  - intros H; inversion H; auto.
Qed.

Lemma EQ_refl (a : Vec) : EQ a a = true.
Proof. apply EQ_eq; reflexivity. Qed.

Lemma EQ_neq (a b : Vec) : EQ a b = false <-> a <> b.
Proof.
  rewrite <- EQ_eq. destruct (EQ a b); split; congruence.
Qed.

Lemma hitSelf_In (s : list Vec) (h : Vec) : hitSelf s h = true <-> In h s.
Proof.
  unfold hitSelf. rewrite existsb_exists. split.
  - intros [c [Hin Heq]]. apply EQ_eq in Heq. subst; assumption.
  - intros Hin. exists h. split; [assumption | apply EQ_refl].
Qed.

Lemma hitSelf_not_In (s : list Vec) (h : Vec) : hitSelf s h = false <-> ~ In h s.
Proof.
  rewrite <- hitSelf_In. destruct (hitSelf s h); split; congruence.
Qed.

Lemma hitWall_outside (n : Z) (h : Vec) :
  hitWall n h = true <-> ~ (0 <= x h < n) \/ ~ (0 <= y h < n).
Proof.
  unfold hitWall. rewrite !orb_true_iff, !Z.ltb_lt, !Z.geb_le. lia.
Qed.

Lemma hitWall_inGrid (n : Z) (h : Vec) : hitWall n h = false <-> inGrid n h.
Proof.
  unfold inGrid. pose proof (hitWall_outside n h) as H.
  destruct (hitWall n h); split; intros G; try discriminate; try reflexivity.
  - assert (true = true) as E by reflexivity. apply H in E. lia.
  - assert (~ (~ (0 <= x h < n) \/ ~ (0 <= y h < n))) as K
      by (intros a; apply H in a; discriminate).
    lia.
Qed.

Lemma isUnit_cases (d : Vec) :
  isUnit d = true <-> d = dirUp \/ d = dirDown \/ d = dirLeft \/ d = dirRight.
Proof.
  unfold isUnit. rewrite !orb_true_iff, !EQ_eq. tauto.
Qed.

Lemma opposite_self_unit (d : Vec) : isUnit d = true -> opposite d d = false.
Proof.
  rewrite isUnit_cases. intros [-> | [-> | [-> | ->]]]; reflexivity.
Qed.

Lemma getDirForCode_unit (code : string) (d : Vec) :
  getDirForCode code = Some d -> isUnit d = true.
Proof.
  unfold getDirForCode, DIRS; simpl.
  repeat (match goal with
          | |- context [String.eqb ?a ?b] => destruct (String.eqb a b)
          end; [intros E; inversion E; reflexivity | ]).
  discriminate.
Qed.

Lemma swipeDirection_unit (dx dy : Q) (d : Vec) :
  swipeDirection dx dy = Some d -> isUnit d = true.
Proof.
  unfold swipeDirection.
  destruct (negb (Qle_bool minSwipeDistance (Qmax (Qabs dx) (Qabs dy))));
    [discriminate | ].
  destruct (negb (Qle_bool (Qabs dx) (Qabs dy)));
    [destruct (negb (Qle_bool dx 0)) | destruct (negb (Qle_bool dy 0))];
    intros E; inversion E; reflexivity.
Qed.

(** ** The direction commit *)

Lemma commitDir_snake (st : GameState) : snake (commitDir st) = snake st.
Proof. unfold commitDir. destruct (negb _); reflexivity. Qed.

Lemma commitDir_gridSize (st : GameState) : gridSize (commitDir st) = gridSize st.
Proof. unfold commitDir. destruct (negb _); reflexivity. Qed.

Lemma commitDir_food (st : GameState) : food (commitDir st) = food st.
Proof. unfold commitDir. destruct (negb _); reflexivity. Qed.

Lemma commitDir_score (st : GameState) : score (commitDir st) = score st.
Proof. unfold commitDir. destruct (negb _); reflexivity. Qed.

Lemma commitDir_grace (st : GameState) : grace (commitDir st) = grace st.
Proof. unfold commitDir. destruct (negb _); reflexivity. Qed.

Lemma commitDir_nextDir (st : GameState) : nextDir (commitDir st) = nextDir st.
Proof. unfold commitDir. destruct (negb _); reflexivity. Qed.

Lemma commitDir_tickMs (st : GameState) : tickMs (commitDir st) = tickMs st.
Proof. unfold commitDir. destruct (negb _); reflexivity. Qed.

Lemma commitDir_dir (st : GameState) :
  dir (commitDir st) =
  if opposite (nextDir st) (dir st) then dir st else nextDir st.
Proof. unfold commitDir. destruct (opposite _ _); reflexivity. Qed.

(** ** The branches of a tick *)

Section Tick.

Variable random : nat -> Q.

Lemma tick_throws fuel now p st :
  candidate st = None -> tick random fuel now p st = Throws.
Proof.
  unfold candidate, tick. rewrite commitDir_snake.
  destruct (snake st); [reflexivity | discriminate].
Qed.

Lemma tick_game_over fuel now p st nh :
  candidate st = Some nh ->
  collides st nh = true ->
  Qle_bool (grace st) 0 = true ->
  tick random fuel now p st =
  Ret (gameOverPage now (score st) (spend st p), commitDir st, Break).
Proof.
  unfold candidate, collides, tick. rewrite commitDir_snake.
  destruct (snake st) as [| h t] eqn:Hs; [discriminate | ].
  intros Hc Hcol Hg. injection Hc as <-.
  rewrite commitDir_gridSize, commitDir_grace, commitDir_score, Hcol, Hg.
  reflexivity.
Qed.

Lemma tick_graced fuel now p st nh :
  candidate st = Some nh ->
  collides st nh = true ->
  Qle_bool (grace st) 0 = false ->
  tick random fuel now p st =
  Ret (spend st p, set_grace 0%Q (commitDir st), Break).
Proof.
  unfold candidate, collides, tick. rewrite commitDir_snake.
  destruct (snake st) as [| h t] eqn:Hs; [discriminate | ].
  intros Hc Hcol Hg. injection Hc as <-.
  rewrite commitDir_gridSize, commitDir_grace, Hcol, Hg.
  reflexivity.
Qed.

Lemma tick_move fuel now p st nh :
  candidate st = Some nh ->
  collides st nh = false ->
  EQ nh (food st) = false ->
  tick random fuel now p st =
  Ret (spend st p,
       set_snake (removelast (nh :: snake st)) (commitDir st), Next).
Proof.
  unfold candidate, collides, tick. rewrite commitDir_snake.
  destruct (snake st) as [| h t] eqn:Hs; [discriminate | ].
  intros Hc Hcol Hf. injection Hc as <-.
  rewrite commitDir_gridSize, Hcol. cbn [andb set_snake food].
  rewrite commitDir_food, Hf. reflexivity.
Qed.

Lemma tick_eat fuel now p st nh :
  candidate st = Some nh ->
  collides st nh = false ->
  EQ nh (food st) = true ->
  tick random fuel now p st =
  ('(f, i) <- randFood random fuel (gridSize st) (nh :: snake st) (drawn p) ;;
   Ret (set_drawn i (spend st p), grown nh f st, Next)).
Proof.
  unfold candidate, collides, tick. rewrite commitDir_snake.
  destruct (snake st) as [| h t] eqn:Hs; [discriminate | ].
  intros Hc Hcol Hf. injection Hc as <-.
  rewrite commitDir_gridSize, Hcol. cbn [andb set_snake food].
  rewrite commitDir_food, Hf.
  unfold grown, spend, set_snake. cbn [gridSize snake score].
  rewrite commitDir_gridSize, commitDir_score, Hs. reflexivity.
Qed.

Lemma candidate_snake st nh : candidate st = Some nh -> snake st <> [].
Proof. unfold candidate. destruct (snake st); [discriminate | discriminate]. Qed.

Lemma removelast_cons (a : Vec) (l : list Vec) :
  l <> [] -> removelast (a :: l) = a :: removelast l.
Proof. destruct l; [congruence | reflexivity]. Qed.

(** Every tick that returns ends in one of the four ways. *)
Lemma tick_Ticks fuel now p st p' st' c :
  tick random fuel now p st = Ret (p', st', c) ->
  Ticks random now p st p' st' c.
Proof.
  destruct (candidate st) as [nh | ] eqn:Hc;
    [ | rewrite tick_throws by assumption; discriminate].
  destruct (collides st nh) eqn:Hcol.
  - destruct (Qle_bool (grace st) 0) eqn:Hg.
    + rewrite (tick_game_over fuel now p st nh) by assumption.
      intros H. assert (p' = gameOverPage now (score st) (spend st p) /\
                        st' = commitDir st /\ c = Break) as [-> [-> ->]]
        by (repeat split; congruence).
      apply Ticks_over with (nh := nh); assumption.
    + rewrite (tick_graced fuel now p st nh) by assumption.
      intros H. assert (p' = spend st p /\
                        st' = set_grace 0%Q (commitDir st) /\ c = Break)
        as [-> [-> ->]] by (repeat split; congruence).
      apply Ticks_graced with (nh := nh); assumption.
  - destruct (EQ nh (food st)) eqn:Hf.
    + rewrite (tick_eat fuel now p st nh) by assumption.
      destruct (randFood random fuel (gridSize st) (nh :: snake st) (drawn p))
        as [[f i] | | ] eqn:Hr; simpl; try discriminate.
      intros H. assert (p' = set_drawn i (spend st p) /\
                        st' = grown nh f st /\ c = Next)
        as [-> [-> ->]] by (repeat split; congruence).
      apply EQ_eq in Hf.
      apply Ticks_eat with (fuel := fuel); assumption.
    + rewrite (tick_move fuel now p st nh) by assumption.
      rewrite removelast_cons by (eapply candidate_snake; eassumption).
      intros H. assert (p' = spend st p /\
                        st' = set_snake (nh :: removelast (snake st))
                                        (commitDir st) /\ c = Next)
        as [-> [-> ->]] by (repeat split; congruence).
      apply EQ_neq in Hf.
      apply Ticks_move; assumption.
Qed.

(** And each of the four ways is a tick that returns. *)
Lemma Ticks_tick now p st p' st' c :
  Ticks random now p st p' st' c ->
  exists fuel, tick random fuel now p st = Ret (p', st', c).
Proof.
  intros [nh Hc Hcol Hg | nh Hc Hcol Hg | nh Hc Hcol Hf | nh fuel f i Hc Hcol Hf Hr].
  - exists 0%nat. apply tick_game_over with (nh := nh); assumption.
  - exists 0%nat. apply tick_graced with (nh := nh); assumption.
  - exists 0%nat. apply EQ_neq in Hf.
    rewrite (tick_move 0%nat now p st nh) by assumption.
    rewrite removelast_cons by (eapply candidate_snake; eassumption).
    reflexivity.
  - exists fuel. apply EQ_eq in Hf.
    rewrite (tick_eat fuel now p st nh) by assumption.
    rewrite Hr. reflexivity.
Qed.

End Tick.

(** ** The food spawner *)

Lemma cells_length (n : Z) : 0 <= n -> Z.of_nat (length (cells n)) = n * n.
Proof.
  intros Hn. unfold cells. rewrite length_map, length_seq. lia.
Qed.

Lemma cells_inGrid (n : Z) (c : Vec) : In c (cells n) -> inGrid n c.
Proof.
  unfold cells. rewrite in_map_iff. intros [k [<- Hk]].
  apply in_seq in Hk. unfold inGrid; simpl.
  assert (Z.to_nat n <> 0)%nat as Hn by (intros E; rewrite E in Hk; lia).
  pose proof (Nat.mod_upper_bound k (Z.to_nat n) Hn).
  assert (k / Z.to_nat n < Z.to_nat n)%nat
    by (apply Nat.Div0.div_lt_upper_bound; lia).
  lia.
Qed.

Lemma cells_NoDup (n : Z) : NoDup (cells n).
Proof.
  unfold cells. destruct (Nat.eq_dec (Z.to_nat n) 0) as [E | Hn].
  - rewrite E. simpl. constructor.
  - apply NoDup_map_NoDup_ForallPairs; [ | apply seq_NoDup].
    intros a b _ _ H. inversion H as [[Hm Hd]].
    apply Nat2Z.inj in Hm, Hd.
    rewrite (Nat.div_mod_eq a (Z.to_nat n)), (Nat.div_mod_eq b (Z.to_nat n)).
    rewrite Hm, Hd. reflexivity.
Qed.

Lemma filter_short (f : Vec -> bool) (l : list Vec) :
  (length (filter f l) < length l)%nat -> exists c, In c l /\ f c = false.
Proof.
  induction l as [| a l IH]; simpl; [lia | ].
  destruct (f a) eqn:E.
  - simpl. intros H. destruct IH as [c [Hc Hf]]; [lia | ].
    exists c. auto.
  - intros _. exists a. auto.
Qed.

(** Fewer occupied cells than grid cells leaves a grid cell free. *)
Lemma free_cell (n : Z) (s : list Vec) :
  0 <= n -> Z.of_nat (length (occupied n s)) < n * n ->
  exists c, inGrid n c /\ ~ In c s.
Proof.
  intros Hn Hlen. pose proof (cells_length n Hn) as Hc.
  destruct (filter_short (hitSelf s) (cells n)) as [c [Hin Hfree]].
  { unfold occupied in Hlen. lia. }
  exists c. split; [apply cells_inGrid; assumption | ].
  apply hitSelf_not_In; assumption.
Qed.

(** The snake occupies no more cells than it has. *)
Lemma occupied_length (n : Z) (s : list Vec) :
  (length (occupied n s) <= length s)%nat.
Proof.
  apply NoDup_incl_length.
  - apply NoDup_filter, cells_NoDup.
  - intros c Hc. apply filter_In in Hc. apply hitSelf_In. tauto.
Qed.

Section Spawner.

Variable random : nat -> Q.

Lemma scaled_floor_bounds (r : Q) (n : Z) :
  (0 <= r)%Q -> (r < 1)%Q -> 0 < n -> 0 <= Qfloor (r * inject_Z n) < n.
Proof.
  intros H0 H1 Hn.
  assert (0 < inject_Z n)%Q as Hq
    by (change (inject_Z 0 < inject_Z n)%Q; rewrite <- Zlt_Qlt; assumption).
  split.
  - change 0 with (Qfloor 0). apply Qfloor_resp_le.
    apply Qmult_le_0_compat; [assumption | apply Qlt_le_weak; assumption].
  - rewrite Zlt_Qlt.
    apply Qle_lt_trans with (r * inject_Z n)%Q; [apply Qfloor_le | ].
    setoid_replace (inject_Z n) with (1 * inject_Z n)%Q at 2 by ring.
    apply Qmult_lt_compat_r; assumption.
Qed.

Lemma sample_inGrid (n : Z) (i : nat) :
  inRange random -> 0 < n -> inGrid n (sample random n i).
Proof.
  intros Hr Hn. unfold inGrid, sample; simpl.
  destruct (Hr i), (Hr (S i)). split; apply scaled_floor_bounds; assumption.
Qed.

(** What [randFood] returns is the first sample off the snake. *)
Lemma randFood_sound (fuel : nat) (n : Z) (s : list Vec) :
  forall i f j,
  randFood random fuel n s i = Ret (f, j) ->
  exists k, (k < fuel)%nat /\ f = sample random n (i + 2 * k) /\
            j = (i + 2 * k + 2)%nat /\ ~ In f s.
Proof.
  induction fuel as [| fuel IH]; intros i f j; simpl; [discriminate | ].
  fold (hitSelf s (sample random n i)).
  destruct (hitSelf s (sample random n i)) eqn:E; simpl.
  - intros H. apply IH in H. destruct H as [k [Hk [Hf [Hj Hn]]]].
    exists (S k). repeat split; try lia; try assumption.
    rewrite Hf. f_equal. lia.
  - intros H. inversion H; subst. exists 0%nat.
    rewrite Nat.add_0_r. repeat split; try lia.
    apply hitSelf_not_In; assumption.
Qed.

Lemma randFood_never_throws (fuel : nat) (n : Z) (s : list Vec) :
  forall i, randFood random fuel n s i <> Throws.
Proof.
  induction fuel as [| fuel IH]; intros i; simpl; [discriminate | ].
  destruct (negb _); [discriminate | apply IH].
Qed.

(** More fuel does not change a result. *)
Lemma randFood_mono (fuel : nat) (n : Z) (s : list Vec) :
  forall i r fuel',
  randFood random fuel n s i = Ret r -> (fuel <= fuel')%nat ->
  randFood random fuel' n s i = Ret r.
Proof.
  induction fuel as [| fuel IH]; intros i r fuel'; simpl; [discriminate | ].
  intros H Hle. destruct fuel' as [| fuel']; [lia | ]. simpl.
  destruct (negb _); [assumption | ].
  apply IH; [assumption | lia].
Qed.

(** A free sample at pass [k] makes the loop return within [k + 1] passes. *)
Lemma randFood_complete (n : Z) (s : list Vec) :
  forall k i, ~ In (sample random n (i + 2 * k)) s ->
  exists r, randFood random (S k) n s i = Ret r.
Proof.
  induction k as [| k IH]; intros i Hfree.
  - rewrite Nat.add_0_r in Hfree. apply hitSelf_not_In in Hfree.
    simpl. fold (hitSelf s (sample random n i)). rewrite Hfree. simpl.
    eexists; reflexivity.
  - cbn [randFood]. fold (hitSelf s (sample random n i)).
    destruct (hitSelf s (sample random n i)); cbn [negb].
    + apply IH. replace (S (S i) + 2 * k)%nat with (i + 2 * S k)%nat by lia.
      assumption.
    + eexists; reflexivity.
Qed.

(** On a fair source, with a cell of the grid left free, the loop returns. *)
Lemma randFood_returns (n : Z) (s : list Vec) (i : nat) :
  0 < n -> Fair random n i -> Z.of_nat (length (occupied n s)) < n * n ->
  exists fuel r, forall fuel', (fuel <= fuel')%nat ->
                 randFood random fuel' n s i = Ret r.
Proof.
  intros Hn Hfair Hlen.
  destruct (free_cell n s) as [c [Hc Hfree]]; [lia | assumption | ].
  destruct (Hfair c Hc) as [k Hk].
  destruct (randFood_complete n s k i) as [r Hr]; [rewrite Hk; assumption | ].
  exists (S k), r. intros fuel' Hle.
  apply randFood_mono with (fuel := S k); assumption.
Qed.

End Spawner.

Lemma inGrid_cells (n : Z) (c : Vec) : inGrid n c -> In c (cells n).
Proof.
  destruct c as [cx cy]. unfold inGrid, cells; simpl. intros [Hx Hy].
  apply in_map_iff.
  exists (Z.to_nat cx + Z.to_nat cy * Z.to_nat n)%nat. split.
  - assert (Z.to_nat n <> 0)%nat as Hn by lia.
    rewrite Nat.Div0.mod_add, Nat.div_add by assumption.
    rewrite Nat.mod_small, Nat.div_small by lia.
    f_equal; lia.
  - apply in_seq. nia.
Qed.

Lemma sweep_inRange : inRange sweep.
Proof.
  intros i. unfold sweep.
  assert (forall a : nat, (a < 14)%nat ->
                          (0 <= Z.of_nat a # 14 /\ Z.of_nat a # 14 < 1)%Q) as K
    by (intros a Ha; unfold Qle, Qlt; cbn [Qnum Qden]; lia).
  destruct (Nat.even i); apply K; apply Nat.mod_upper_bound; discriminate.
Qed.

Lemma sweep_fair : Fair sweep 14 0.
Proof.
  assert (forallb
            (fun c => EQ (sample sweep 14 (0 + 2 * Z.to_nat (x c + 14 * y c))) c)
            (cells 14) = true) as H by (vm_compute; reflexivity).
  rewrite forallb_forall in H.
  intros c Hc. exists (Z.to_nat (x c + 14 * y c)).
  apply EQ_eq, H, inGrid_cells, Hc.
Qed.

(** A source that keeps drawing an occupied cell starves the loop: here
    every value is one half, every sample is the cell (7,7), and the snake
    sits on it. *)
Lemma randFood_starved (fuel : nat) :
  forall i, randFood (fun _ => 1 # 2) fuel 14 initialSnake i = OutOfFuel.
Proof.
  induction fuel as [| fuel IH]; intros i; [reflexivity | ].
  cbn [randFood].
  replace (sample (fun _ : nat => 1 # 2) 14 i) with {| x := 7; y := 7 |}
    by reflexivity.
  cbn. apply IH.
Qed.

(** ** Input handlers and reversals *)

(** A swipe that reverses the current direction changes nothing of the
    game state: neither the pending direction nor the grace timer. *)
Lemma handleTouchEnd_reversal (touch : option (Q * Q)) (p : Page)
      (start t : Q * Q) (d : Vec) (st : GameState) :
  touchStartRef p = Some start -> touch = Some t ->
  swipeDirection (fst t - fst start) (snd t - snd start) = Some d ->
  stateRef p = Some st -> opposite d (dir st) = true ->
  stateRef (handleTouchEnd touch p) = Some st.
Proof.
  intros Hs -> Hd Hst Hop. unfold handleTouchEnd.
  rewrite Hs, Hd, Hst, Hop. simpl. assumption.
Qed.

(** A swipe that does not reverse is committed and refreshes the timer. *)
Lemma handleTouchEnd_commit (touch : option (Q * Q)) (p : Page)
      (start t : Q * Q) (d : Vec) (st : GameState) :
  touchStartRef p = Some start -> touch = Some t ->
  swipeDirection (fst t - fst start) (snd t - snd start) = Some d ->
  stateRef p = Some st -> opposite d (dir st) = false ->
  stateRef (handleTouchEnd touch p) = Some (set_grace 250%Q (set_nextDir d st)).
Proof.
  intros Hs -> Hd Hst Hop. unfold handleTouchEnd.
  rewrite Hs, Hd, Hst, Hop. reflexivity.
Qed.

(** A key that reverses the current direction leaves the pending direction
    alone, and sets the grace timer to 250 all the same. *)
Lemma onKey_reversal (code : string) (d : Vec) (p : Page) (st : GameState) :
  getDirForCode code = Some d -> stateRef p = Some st ->
  opposite d (dir st) = true ->
  stateRef (onKey code p) = Some (set_grace 250%Q st).
Proof.
  intros Hd Hst Hop. unfold onKey. rewrite Hd, Hst, Hop. reflexivity.
Qed.

(** C1, the keyboard path at a concrete input: the snake moves right, the
    grace timer is at 0, and the player presses the left arrow.  The pending
    direction stays [(1, 0)], yet the grace timer reads 250 afterwards. *)
Theorem onKey_reversing_key_refreshes_grace :
  getDirForCode "ArrowLeft" = Some dirLeft /\
  opposite dirLeft (dir freshState) = true /\
  grace freshState = 0%Q /\
  stateRef (onKey "ArrowLeft" freshPage) = Some (set_grace 250%Q freshState) /\
  nextDir (set_grace 250%Q freshState) = nextDir freshState /\
  grace (set_grace 250%Q freshState) = 250%Q.
Proof. repeat split. Qed.

(** The same reversal as a swipe (100 pixels to the left) changes nothing. *)
Example swipe_reversal_keeps_grace :
  stateRef (handleTouchEnd (Some (0%Q, 50%Q))
              (handleTouchStart (Some (100%Q, 50%Q)) freshPage))
  = Some freshState.
Proof. reflexivity. Qed.

(** ** The direction commit (C5) *)

Section Claims.

Variable random : nat -> Q.

Lemma tick_dir fuel now p st p' st' c :
  tick random fuel now p st = Ret (p', st', c) ->
  dir st' = dir (commitDir st) /\ nextDir st' = nextDir st /\
  gridSize st' = gridSize st.
Proof.
  intros H. apply tick_Ticks in H.
  destruct H; cbn; rewrite commitDir_nextDir, commitDir_gridSize; auto.
Qed.

(** C5: at the direction commit of a tick, a pending direction that is the
    exact opposite of the current one leaves the current direction as it
    was; any other pending direction becomes the current direction.  The
    direction a tick ends with is the committed one, and it is never the
    reverse of the unit direction the tick started with. *)
Theorem commit_never_reverses :
  forall st : GameState,
    (opposite (nextDir st) (dir st) = true -> dir (commitDir st) = dir st) /\
    (opposite (nextDir st) (dir st) = false ->
     dir (commitDir st) = nextDir st) /\
    (isUnit (dir st) = true -> opposite (dir (commitDir st)) (dir st) = false) /\
    (forall fuel now p p' st' c,
        tick random fuel now p st = Ret (p', st', c) ->
        dir st' = dir (commitDir st)).
Proof.
  intros st. rewrite commitDir_dir. repeat split.
  - intros ->. reflexivity.
  - intros ->. reflexivity.
  - intros Hu. destruct (opposite (nextDir st) (dir st)) eqn:E.
    + apply opposite_self_unit; assumption.
    + assumption.
  - intros fuel now p p' st' c H. apply tick_dir in H.
    rewrite <- commitDir_dir. tauto.
Qed.

(** ** The collision test (C3) *)

Lemma last_In (s : list Vec) (d : Vec) : s <> [] -> In (last s d) s.
Proof.
  induction s as [| a s IH]; [congruence | ].
  intros _. destruct s as [| b s]; [left; reflexivity | ].
  right. apply IH. discriminate.
Qed.

Lemma tick_break_iff fuel now p st nh :
  candidate st = Some nh ->
  (collides st nh = true <->
   exists p' st', tick random fuel now p st = Ret (p', st', Break)).
Proof.
  intros Hc. split.
  - intros Hcol. destruct (Qle_bool (grace st) 0) eqn:Hg.
    + rewrite (tick_game_over random fuel now p st nh) by assumption.
      eexists; eexists; reflexivity.
    + rewrite (tick_graced random fuel now p st nh) by assumption.
      eexists; eexists; reflexivity.
  - intros [p' [st' H]]. destruct (collides st nh) eqn:Hcol; [reflexivity | ].
    destruct (EQ nh (food st)) eqn:Hf.
    + rewrite (tick_eat random fuel now p st nh) in H by assumption.
      destruct (randFood random fuel (gridSize st) (nh :: snake st) (drawn p))
        as [[f i] | | ]; simpl in H; discriminate.
    + rewrite (tick_move random fuel now p st nh) in H by assumption.
      discriminate.
Qed.

Lemma tick_collision_snake fuel now p st nh :
  candidate st = Some nh -> collides st nh = true ->
  exists p' st', tick random fuel now p st = Ret (p', st', Break) /\
                 snake st' = snake st /\ score st' = score st.
Proof.
  intros Hc Hcol. destruct (Qle_bool (grace st) 0) eqn:Hg.
  - rewrite (tick_game_over random fuel now p st nh) by assumption.
    eexists; eexists; split; [reflexivity | ].
    rewrite commitDir_snake, commitDir_score. auto.
  - rewrite (tick_graced random fuel now p st nh) by assumption.
    eexists; eexists; split; [reflexivity | ]. cbn.
    rewrite commitDir_snake, commitDir_score. auto.
Qed.

(** C3: the collision test of a tick looks at the candidate head and the
    snake as it is before the move.  The wall test holds exactly when a
    coordinate of the candidate is outside [0, N); the self test holds
    exactly when the candidate is a cell of the snake, the last cell (which
    a move would vacate) included; and a tick leaves by the collision
    branches exactly when one of the two tests holds. *)
Theorem collision_test_on_pre_move_body :
  (forall (N : Z) (h : Vec),
      hitWall N h = true <-> ~ (0 <= x h < N) \/ ~ (0 <= y h < N)) /\
  (forall (s : list Vec) (h : Vec), hitSelf s h = true <-> In h s) /\
  (forall (s : list Vec) (d : Vec), s <> [] -> hitSelf s (last s d) = true) /\
  (forall fuel now p st nh,
      candidate st = Some nh ->
      (hitWall (gridSize st) nh || hitSelf (snake st) nh = true <->
       exists p' st', tick random fuel now p st = Ret (p', st', Break))) /\
  (forall fuel now p st d,
      candidate st = Some (last (snake st) d) ->
      exists p' st', tick random fuel now p st = Ret (p', st', Break) /\
                     snake st' = snake st).
Proof.
  split; [exact hitWall_outside | ].
  split; [exact hitSelf_In | ].
  split; [intros s d Hs; apply hitSelf_In, last_In, Hs | ].
  split; [intros fuel now p st nh Hc; apply (tick_break_iff fuel now p st nh Hc) | ].
  intros fuel now p st d Hc.
  assert (snake st <> []) as Hne
    by (unfold candidate in Hc; destruct (snake st); [discriminate | discriminate]).
  assert (collides st (last (snake st) d) = true) as Hcol.
  { unfold collides. apply orb_true_iff. right.
    apply hitSelf_In, last_In, Hne. }
  destruct (tick_collision_snake fuel now p st _ Hc Hcol) as [p' [st' [H [Hs _]]]].
  exists p', st'. auto.
Qed.

(** ** The speed curve (C7) *)

Lemma speed_closed_form (s : Z) : speed s = 170 - 3 * Z.min s 30.
Proof.
  unfold speed. replace ((170 - 80) * Z.min s 30) with (3 * Z.min s 30 * 30) by lia.
  rewrite Z.div_mul by discriminate. reflexivity.
Qed.

Lemma tick_score_speed fuel now p st p' st' c :
  tick random fuel now p st = Ret (p', st', c) ->
  score st' <> score st ->
  score st' = score st + 1 /\ tickMs st' = speed (score st').
Proof.
  intros H. apply tick_Ticks in H.
  destruct H; cbn; rewrite ?commitDir_score; auto; congruence.
Qed.

(** ** Collisions and the grace timer (C2) *)

(** A frame on a page that is not running, or is over, runs no tick. *)
Lemma step_stopped fuel ts now ctx q :
  running q && negb (gameOver q) = false ->
  exists q', step random fuel ts now ctx q = Ret q' /\
             stateRef q' = stateRef q /\ accRef q' = accRef q /\
             running q' = running q /\ gameOver q' = gameOver q /\
             best q' = best q.
Proof.
  intros H. unfold step.
  destruct (stateRef q) as [st | ] eqn:Hst;
    [ | exists q; rewrite Hst; repeat split; reflexivity].
  destruct ctx; cbn [negb];
    [ | exists q; rewrite Hst; repeat split; reflexivity].
  cbn [running gameOver set_lastTsRef]. rewrite H.
  eexists; split; [reflexivity | ]. cbn. rewrite Hst. repeat split; reflexivity.
Qed.

(** C2: on a tick whose candidate head hits the wall or the snake, with the
    grace timer at or below 0 the game is over: the loop is left, the page
    is over and no longer running, the best score is the larger of the
    previous best and the score, and later frames run no tick.  With the
    grace timer above 0 the game goes on: the page is as it was, the timer
    is set to 0 and the snake is unchanged. *)
Theorem collision_grace_policy :
  forall fuel now p st nh,
    candidate st = Some nh ->
    collides st nh = true ->
    ((grace st <= 0)%Q ->
     exists p' st',
       tick random fuel now p st = Ret (p', st', Break) /\
       gameOver p' = true /\ running p' = false /\
       best p' = Qmax (best p) (inject_Z (score st)) /\
       snake st' = snake st /\
       (forall fuel' ts now' ctx,
           exists q, step random fuel' ts now' ctx (set_stateRef (Some st') p')
                     = Ret q /\
                     stateRef q = Some st' /\ gameOver q = true)) /\
    ((0 < grace st)%Q ->
     exists p' st',
       tick random fuel now p st = Ret (p', st', Break) /\
       gameOver p' = gameOver p /\ running p' = running p /\
       best p' = best p /\
       grace st' = 0%Q /\ snake st' = snake st).
Proof.
  intros fuel now p st nh Hc Hcol. split.
  - intros Hg. apply Qle_bool_iff in Hg.
    rewrite (tick_game_over random fuel now p st nh) by assumption.
    eexists; eexists; split; [reflexivity | ].
    repeat split; try reflexivity; try apply commitDir_snake.
    intros fuel' ts now' ctx.
    destruct (step_stopped fuel' ts now' ctx
                (set_stateRef (Some (commitDir st))
                   (gameOverPage now (score st) (spend st p))))
      as [q [Hq [Hs [_ [_ [Ho _]]]]]]; [reflexivity | ].
    exists q. auto.
  - intros Hg.
    assert (Qle_bool (grace st) 0 = false) as Hb.
    { destruct (Qle_bool (grace st) 0) eqn:E; [ | reflexivity].
      apply Qle_bool_iff in E. exfalso.
      exact (Qlt_not_le _ _ Hg E). }
    rewrite (tick_graced random fuel now p st nh) by assumption.
    eexists; eexists; split; [reflexivity | ].
    repeat split; try reflexivity. apply commitDir_snake.
Qed.

(** ** Growth and movement (C4) *)

Lemma removelast_length (l : list Vec) :
  l <> [] -> S (length (removelast l)) = length l.
Proof.
  induction l as [| a l IH]; [congruence | ]. intros _.
  destruct l as [| b l]; [reflexivity | ].
  rewrite removelast_cons by discriminate.
  cbn [length]. rewrite IH by discriminate. reflexivity.
Qed.

Lemma tick_move_result fuel now p st nh :
  candidate st = Some nh -> collides st nh = false -> nh <> food st ->
  exists p' st',
    tick random fuel now p st = Ret (p', st', Next) /\
    snake st' = nh :: removelast (snake st) /\
    length (snake st') = length (snake st) /\
    score st' = score st.
Proof.
  intros Hc Hcol Hf. apply EQ_neq in Hf.
  rewrite (tick_move random fuel now p st nh) by assumption.
  pose proof (candidate_snake st nh Hc) as Hne.
  eexists; eexists; split; [reflexivity | ]. cbn [snake set_snake score].
  rewrite removelast_cons by assumption. repeat split.
  - cbn [length]. apply removelast_length; assumption.
  - apply commitDir_score.
Qed.

Lemma tick_eat_result fuel now p st nh p' st' c :
  candidate st = Some nh -> collides st nh = false -> nh = food st ->
  tick random fuel now p st = Ret (p', st', c) ->
  c = Next /\ snake st' = nh :: snake st /\
  length (snake st') = S (length (snake st)) /\
  score st' = score st + 1 /\ ~ In (food st') (snake st').
Proof.
  intros Hc Hcol Hf. apply EQ_eq in Hf.
  rewrite (tick_eat random fuel now p st nh) by assumption.
  destruct (randFood random fuel (gridSize st) (nh :: snake st) (drawn p))
    as [[f i] | | ] eqn:Hr; simpl; try discriminate.
  intros H; inversion H; subst. cbn.
  apply randFood_sound in Hr. destruct Hr as [k [_ [_ [_ Hfree]]]].
  repeat split; assumption.
Qed.

Lemma tick_eat_returns now p st nh :
  candidate st = Some nh -> collides st nh = false -> nh = food st ->
  0 < gridSize st -> Fair random (gridSize st) (drawn p) ->
  Z.of_nat (length (snake st)) + 1 < gridSize st * gridSize st ->
  exists fuel p' st', forall fuel', (fuel <= fuel')%nat ->
    tick random fuel' now p st = Ret (p', st', Next).
Proof.
  intros Hc Hcol Hf Hn Hfair Hroom. apply EQ_eq in Hf.
  destruct (randFood_returns random (gridSize st) (nh :: snake st) (drawn p))
    as [fuel [[f i] Hr]]; try assumption.
  { pose proof (occupied_length (gridSize st) (nh :: snake st)) as Ho.
    cbn [length] in Ho. lia. }
  exists fuel. eexists; eexists. intros fuel' Hle.
  rewrite (tick_eat random fuel' now p st nh) by assumption.
  rewrite (Hr fuel' Hle). simpl. reflexivity.
Qed.

(** Food that the spawner placed (in the grid, off the snake) is never
    under a collision. *)
Lemma food_no_collision st nh :
  inGrid (gridSize st) (food st) -> ~ In (food st) (snake st) ->
  nh = food st -> collides st nh = false.
Proof.
  intros Hg Hfree ->. unfold collides. apply orb_false_iff. split.
  - apply hitWall_inGrid; assumption.
  - apply hitSelf_not_In; assumption.
Qed.

(** ** The food spawner (C6) *)

(** C6: for a grid of dimension N and a snake that occupies fewer than N
    times N of its cells, on a source that draws values in [0, 1) and is
    fair, [randFood] returns: from some fuel on the result is one and the
    same cell, which lies in the grid and is not a cell of the snake.
    Whatever [randFood] returns, with any fuel, is such a cell. *)
Theorem randFood_returns_free_cell :
  forall (N : Z) (s : list Vec) (i : nat),
    0 < N ->
    inRange random ->
    Fair random N i ->
    Z.of_nat (length (occupied N s)) < N * N ->
    (exists fuel f j,
        inGrid N f /\ ~ In f s /\
        forall fuel', (fuel <= fuel')%nat ->
                      randFood random fuel' N s i = Ret (f, j)) /\
    (forall fuel f j,
        randFood random fuel N s i = Ret (f, j) ->
        inGrid N f /\ ~ In f s /\ hitSelf s f = false).
Proof.
  intros N s i HN Hr Hfair Hocc.
  assert (forall fuel f j,
             randFood random fuel N s i = Ret (f, j) ->
             inGrid N f /\ ~ In f s /\ hitSelf s f = false) as Hsound.
  { intros fuel f j H. apply randFood_sound in H.
    destruct H as [k [_ [Hf [_ Hfree]]]]. subst f.
    split; [apply sample_inGrid; assumption | ].
    split; [assumption | apply hitSelf_not_In; assumption]. }
  split; [ | exact Hsound].
  destruct (randFood_returns random N s i HN Hfair Hocc) as [fuel [[f j] H]].
  exists fuel, f, j.
  destruct (Hsound fuel f j (H fuel (Nat.le_refl fuel))) as [Hg [Hfree _]].
  auto.
Qed.

(** ** Reset (C10) *)

Lemma resizeCanvas_drawn target p : drawn (resizeCanvas target p) = drawn p.
Proof. unfold resizeCanvas. destruct (stateRef p); reflexivity. Qed.

(** What a reset that returns has done: one call of [randFood] on the
    initial snake, and a page rebuilt around its result. *)
Lemma reset_result fuel target clientWidth clientHeight p p' :
  reset random fuel target clientWidth clientHeight p = Ret p' ->
  exists f i,
    randFood random fuel 14 initialSnake (drawn p) = Ret (f, i) /\
    p' = set_gameOverAtRef None
           (set_gameOver false
              (set_drawn i
                 (set_stateRef
                    (Some (resetState
                             (Z.max 8 (Z.min clientWidth clientHeight / 14)) f))
                    (resizeCanvas target p)))).
Proof.
  unfold reset. rewrite resizeCanvas_drawn.
  change [ {| x := 14 / 2; y := 14 / 2 |}; {| x := 14 / 2 - 1; y := 14 / 2 |} ]
    with initialSnake.
  destruct (randFood random fuel 14 initialSnake (drawn p))
    as [[f i] | | ] eqn:Hr; simpl; try discriminate.
  intros H; inversion H; subst; clear H.
  exists f, i. split; reflexivity.
Qed.

Lemma reset_returns target clientWidth clientHeight p :
  Fair random 14 (drawn p) ->
  exists fuel p', forall fuel', (fuel <= fuel')%nat ->
    reset random fuel' target clientWidth clientHeight p = Ret p'.
Proof.
  intros Hfair.
  destruct (randFood_returns random 14 initialSnake (drawn p))
    as [fuel [[f i] Hr]]; [lia | assumption | | ].
  { pose proof (occupied_length 14 initialSnake) as Ho.
    cbn [length initialSnake] in Ho. lia. }
  exists fuel. eexists. intros fuel' Hle. unfold reset.
  rewrite resizeCanvas_drawn.
  change [ {| x := 14 / 2; y := 14 / 2 |}; {| x := 14 / 2 - 1; y := 14 / 2 |} ]
    with initialSnake.
  rewrite (Hr fuel' Hle). reflexivity.
Qed.

(** C10: whatever the page was before, a reset leaves the same
    configuration: grid dimension 14, the snake (7,7),(6,7) head first,
    current and pending direction (1,0), score 0, tick interval 170, grace
    0, and a food cell that is not a cell of the snake.  On a fair source
    the reset does return. *)
Theorem reset_initial_configuration :
  forall (target clientWidth clientHeight : Z) (p : Page),
    Fair random 14 (drawn p) ->
    (exists fuel p', forall fuel', (fuel <= fuel')%nat ->
        reset random fuel' target clientWidth clientHeight p = Ret p') /\
    (forall fuel p',
        reset random fuel target clientWidth clientHeight p = Ret p' ->
        exists st,
          stateRef p' = Some st /\
          gridSize st = 14 /\
          snake st = [ {| x := 7; y := 7 |}; {| x := 6; y := 7 |} ] /\
          dir st = {| x := 1; y := 0 |} /\
          nextDir st = {| x := 1; y := 0 |} /\
          score st = 0 /\ tickMs st = 170 /\ grace st = 0%Q /\
          ~ In (food st) (snake st) /\
          gameOver p' = false).
Proof.
  intros target cw ch p Hfair. split.
  - apply reset_returns; assumption.
  - intros fuel p' H. apply reset_result in H.
    destruct H as [f [i [Hr ->]]].
    apply randFood_sound in Hr. destruct Hr as [k [_ [_ [_ Hfree]]]].
    eexists. split; [reflexivity | ]. cbn. repeat split; assumption.
Qed.

(** ** Invariants of play *)

Lemma In_removelast (l : list Vec) (c : Vec) : In c (removelast l) -> In c l.
Proof.
  induction l as [| a l IH]; simpl; [tauto | ].
  destruct l as [| b l]; [simpl; tauto | ].
  intros [-> | H]; [left; reflexivity | right; apply IH; assumption].
Qed.

Lemma NoDup_removelast (l : list Vec) : NoDup l -> NoDup (removelast l).
Proof.
  induction l as [| a l IH]; simpl; [auto | ].
  destruct l as [| b l]; [intros _; constructor | ].
  intros H. inversion H as [| ? ? Hnot Hnd]; subst. constructor.
  - intros Hin. apply Hnot. apply In_removelast; assumption.
  - apply IH; assumption.
Qed.

Lemma Forall_removelast (P : Vec -> Prop) (l : list Vec) :
  Forall P l -> Forall P (removelast l).
Proof.
  rewrite !Forall_forall. intros H c Hc. apply H, In_removelast, Hc.
Qed.

(** A property of the game state that the loop body keeps, that does not
    look at the cell size, the grace timer or the pending unit direction,
    and that holds after a reset, holds of every reachable page. *)
Section Invariance.

Variable P : GameState -> Prop.

Hypothesis P_tick : forall fuel now p st p' st' c,
    P st -> tick random fuel now p st = Ret (p', st', c) -> P st'.
Hypothesis P_grace : forall g st, (0 <= g)%Q -> P st -> P (set_grace g st).
Hypothesis P_cell : forall n st, P st -> P (set_cell n st).
Hypothesis P_nextDir : forall d st,
    isUnit d = true -> P st -> P (set_nextDir d st).
Hypothesis P_reset : forall fuel i f j c,
    randFood random fuel 14 initialSnake i = Ret (f, j) -> P (resetState c f).

Lemma loop_inv fuel now :
  forall p st p' st',
    P st -> loop random fuel now p st = Ret (p', st') -> P st'.
Proof.
  induction fuel as [| fuel IH]; intros p st p' st' Hinv; simpl.
  - destruct (Qle_bool _ _); [discriminate | ].
    intros H; inversion H; subst; assumption.
  - destruct (Qle_bool _ _);
      [ | intros H; inversion H; subst; assumption].
    destruct (tick random fuel now p st) as [[[q st2] c] | | ] eqn:Ht;
      simpl; try discriminate.
    apply P_tick in Ht; [ | assumption].
    destruct c.
    + intros H. eapply IH; eassumption.
    + intros H; inversion H; subst; assumption.
Qed.

Lemma step_inv fuel ts now ctx p p' :
  pageInv P p -> step random fuel ts now ctx p = Ret p' -> pageInv P p'.
Proof.
  intros Hinv. unfold step.
  destruct (stateRef p) as [st | ] eqn:Hst;
    [ | intros H; inversion H; subst; assumption].
  destruct ctx; cbn [negb];
    [ | intros H; inversion H; subst; assumption].
  cbn [running gameOver set_lastTsRef].
  destruct (running p && negb (gameOver p)).
  - match goal with
    | |- context [loop random fuel now ?q ?s] =>
        destruct (loop random fuel now q s) as [[q' st'] | | ] eqn:Hl
    end; simpl; try discriminate.
    apply loop_inv in Hl;
      [ | apply P_grace; [apply Q.le_max_l | apply Hinv, Hst]].
    intros H; inversion H; subst. intros st2 E. cbn in E.
    inversion E; subst; assumption.
  - intros H; inversion H; subst. intros st2 E. cbn in E.
    apply Hinv. assumption.
Qed.

Lemma onKey_inv code p : pageInv P p -> pageInv P (onKey code p).
Proof.
  intros Hinv. unfold onKey.
  destruct (getDirForCode code) as [d | ] eqn:Hd; [ | assumption].
  destruct (stateRef p) as [st | ] eqn:Hst; [ | assumption].
  apply getDirForCode_unit in Hd.
  intros st2 E. cbn in E. inversion E; subst; clear E.
  apply P_grace; [discriminate | ].
  destruct (negb (opposite d (dir st)));
    [apply P_nextDir; [assumption | ] | ]; apply Hinv, Hst.
Qed.

Lemma handleTouchEnd_inv touch p :
  pageInv P p -> pageInv P (handleTouchEnd touch p).
Proof.
  intros Hinv. unfold handleTouchEnd.
  destruct (touchStartRef p) as [start | ]; [ | assumption].
  destruct touch as [t | ]; [ | assumption].
  destruct (swipeDirection _ _) as [d | ] eqn:Hd; [ | exact Hinv].
  apply swipeDirection_unit in Hd.
  destruct (stateRef p) as [st | ] eqn:Hst.
  - destruct (negb (opposite d (dir st))).
    + intros st2 E. cbn in E. inversion E; subst; clear E.
      apply P_grace; [discriminate | ].
      apply P_nextDir; [assumption | apply Hinv, Hst].
    + intros st2 E. cbn in E. apply Hinv. assumption.
  - intros st2 E. cbn in E. apply Hinv. assumption.
Qed.

Lemma resizeCanvas_inv target p :
  pageInv P p -> pageInv P (resizeCanvas target p).
Proof.
  intros Hinv. unfold resizeCanvas.
  destruct (stateRef p) as [st | ] eqn:Hst; [ | assumption].
  intros st2 E. cbn in E. inversion E; subst.
  apply P_cell, Hinv, Hst.
Qed.

Lemma reset_inv fuel target cw ch p p' :
  reset random fuel target cw ch p = Ret p' -> pageInv P p'.
Proof.
  intros H. apply reset_result in H. destruct H as [f [i [Hr ->]]].
  intros st E. cbn in E. inversion E; subst.
  eapply P_reset; eassumption.
Qed.

Lemma start_inv fuel target cw ch p p' :
  start random fuel target cw ch p = Ret p' -> pageInv P p'.
Proof.
  unfold start.
  destruct (reset random fuel target cw ch p) as [q | | ] eqn:Hr;
    simpl; try discriminate.
  intros H; inversion H; subst.
  apply reset_inv in Hr. exact Hr.
Qed.

Lemma handle_inv fuel e p p' :
  pageInv P p -> handle random fuel e p = Ret p' -> pageInv P p'.
Proof.
  intros Hinv. destruct e; simpl.
  - apply start_inv.
  - apply start_inv.
  - intros H; inversion H; subst. apply resizeCanvas_inv; assumption.
  - intros H; inversion H; subst. apply onKey_inv; assumption.
  - intros H; inversion H; subst. destruct touch; exact Hinv.
  - intros H; inversion H; subst. apply handleTouchEnd_inv; assumption.
  - apply step_inv; assumption.
Qed.

Lemma reachable_inv p : reachable random p -> pageInv P p.
Proof.
  induction 1 as [best0 n | p fuel e p' Hr IH He].
  - intros st E. discriminate.
  - eapply handle_inv; eassumption.
Qed.

End Invariance.

(** *** The snake and the directions *)

Lemma commitDir_unit (st : GameState) :
  isUnit (dir st) = true -> isUnit (nextDir st) = true ->
  isUnit (dir (commitDir st)) = true.
Proof.
  intros Hd Hn. rewrite commitDir_dir.
  destruct (opposite (nextDir st) (dir st)); assumption.
Qed.

Lemma no_collision_free st nh :
  collides st nh = false <-> inGrid (gridSize st) nh /\ ~ In nh (snake st).
Proof.
  unfold collides. rewrite orb_false_iff, hitWall_inGrid, hitSelf_not_In.
  tauto.
Qed.

Lemma tick_StrongInv fuel now p st p' st' c :
  StrongInv st -> tick random fuel now p st = Ret (p', st', c) ->
  StrongInv st'.
Proof.
  intros [[Hg [Hnd [Hlen Hd]]] Hn] H.
  pose proof (commitDir_unit st Hd Hn) as Hu.
  destruct (tick_dir fuel now p st p' st' c H) as [Ed [En EN]].
  unfold StrongInv, Inv. rewrite Ed, En, EN.
  assert (Forall (inGrid (gridSize st)) (snake st') /\ NoDup (snake st') /\
          (2 <= length (snake st'))%nat) as K; [ | tauto].
  clear Ed En EN. apply tick_Ticks in H.
  destruct H as [nh Hc Hcol _ | nh Hc Hcol _ | nh Hc Hcol Hf
                 | nh fuel' f i Hc Hcol Hf Hr];
    cbn [snake set_snake set_grace grown set_tickMs set_food set_score];
    rewrite ?commitDir_snake; auto;
    destruct (proj1 (no_collision_free st nh) Hcol) as [Hw Hs].
  - pose proof (candidate_snake st nh Hc) as Hne. repeat split.
    + constructor; [assumption | apply Forall_removelast; assumption].
    + constructor; [ | apply NoDup_removelast; assumption].
      intros Hin. apply Hs, In_removelast, Hin.
    + cbn [length]. rewrite removelast_length by assumption. assumption.
  - repeat split.
    + constructor; assumption.
    + constructor; assumption.
    + cbn [length]. lia.
Qed.

Lemma resetState_StrongInv c f : StrongInv (resetState c f).
Proof.
  unfold StrongInv, Inv; cbn. repeat split.
  - repeat constructor; cbn; lia.
  - repeat constructor; simpl; intuition discriminate.
  - lia.
Qed.

Lemma reachable_StrongInv p :
  reachable random p -> pageInv StrongInv p.
Proof.
  apply reachable_inv.
  - exact tick_StrongInv.
  - intros g st _ H; exact H.
  - intros n st H; exact H.
  - intros d st Hd [Hi _]. split; assumption.
  - intros fuel i f j c _. apply resetState_StrongInv.
Qed.

(** *** The food *)

Lemma tick_FoodInv fuel now p st p' st' c :
  inRange random ->
  FoodInv st -> tick random fuel now p st = Ret (p', st', c) -> FoodInv st'.
Proof.
  intros Hrange [HN [Hg Hfree]] H.
  destruct (tick_dir fuel now p st p' st' c H) as [_ [_ EN]].
  unfold FoodInv. rewrite EN. split; [assumption | ].
  apply tick_Ticks in H.
  destruct H as [nh Hc Hcol _ | nh Hc Hcol _ | nh Hc Hcol Hf
                 | nh fuel' f i Hc Hcol Hf Hr];
    cbn [food snake set_snake set_grace grown set_tickMs set_food set_score];
    rewrite ?commitDir_food, ?commitDir_snake; auto.
  - split; [assumption | ].
    intros [E | Hin]; [congruence | ].
    apply Hfree, In_removelast, Hin.
  - apply randFood_sound in Hr. destruct Hr as [k [_ [Hs [_ Hn]]]].
    split; [ | assumption]. rewrite Hs.
    apply sample_inGrid; [assumption | lia].
Qed.

Lemma reachable_FoodInv p :
  inRange random -> reachable random p -> pageInv FoodInv p.
Proof.
  intros Hrange. apply reachable_inv.
  - intros fuel now q st q' st' c. apply tick_FoodInv; assumption.
  - intros g st _ H; exact H.
  - intros n st H; exact H.
  - intros d st _ H; exact H.
  - intros fuel i f j c Hr.
    apply randFood_sound in Hr. destruct Hr as [k [_ [Hs [_ Hn]]]].
    unfold FoodInv; cbn. repeat split; try assumption; try lia;
      rewrite Hs; apply (sample_inGrid random 14 _ Hrange); lia.
Qed.

(** *** The numbers *)

Lemma tick_Tuned fuel now p st p' st' c :
  Tuned st -> tick random fuel now p st = Ret (p', st', c) -> Tuned st'.
Proof.
  intros [Hsc [Ht Hg]] H. apply tick_Ticks in H.
  destruct H; unfold Tuned; cbn;
    rewrite ?commitDir_score, ?commitDir_tickMs, ?commitDir_grace;
    repeat split; try assumption; try lia; discriminate.
Qed.

Lemma reachable_Tuned p : reachable random p -> pageInv Tuned p.
Proof.
  apply reachable_inv.
  - exact tick_Tuned.
  - intros g st Hg [Hsc [Ht _]]. repeat split; assumption.
  - intros n st H; exact H.
  - intros d st _ H; exact H.
  - intros fuel i f j c _. unfold Tuned; cbn. repeat split; try lia.
    discriminate.
Qed.

(** C8: every game state of a reachable page has all snake cells inside the
    grid, no cell twice, at least two cells, and one of the four unit
    vectors as its current direction.  A tick keeps the invariant on every
    state whose pending direction is a unit vector as well (which holds of
    every reachable state and is kept too), and what a reset leaves
    satisfies it. *)
Theorem play_invariant :
  (forall p, reachable random p ->
             forall st, stateRef p = Some st ->
                        Inv st /\ isUnit (nextDir st) = true) /\
  (forall fuel now p st p' st' c,
      Inv st -> isUnit (nextDir st) = true ->
      tick random fuel now p st = Ret (p', st', c) ->
      Inv st' /\ isUnit (nextDir st') = true) /\
  (forall fuel target clientWidth clientHeight p p',
      reset random fuel target clientWidth clientHeight p = Ret p' ->
      exists st, stateRef p' = Some st /\
                 Inv st /\ isUnit (nextDir st) = true).
Proof.
  split; [ | split].
  - intros p Hr st Hst. apply (reachable_StrongInv p Hr st Hst).
  - intros fuel now p st p' st' c Hi Hn H.
    apply (tick_StrongInv fuel now p st p' st' c (conj Hi Hn) H).
  - intros fuel target cw ch p p' H.
    apply reset_result in H. destruct H as [f [i [_ ->]]].
    eexists. split; [reflexivity | ]. apply resetState_StrongInv.
Qed.

(** ** The speed curve, the claim (C7) *)

(** C7: the tick interval set when food is eaten is the linear
    interpolation from 170 at score 0 down to 80 at score 30, that is
    170 - (170 - 80) * min(score, 30) / 30 as a rational, and 80 from score
    30 on: 170 at score 0, 125 at score 15, 80 at score 30.  It never
    increases as the score increases.  A tick that changes the score sets
    the interval to the curve's value at the new score, and in every
    reachable state the interval is the curve's value at the score. *)
Theorem speed_curve_linear_and_monotone :
  (forall s : Z,
      (inject_Z (speed s) ==
       170 - (170 - 80) * (inject_Z (Z.min s 30) / 30))%Q) /\
  (forall s : Z, 30 <= s -> speed s = 80) /\
  speed 0 = 170 /\ speed 15 = 125 /\ speed 30 = 80 /\
  (forall s t : Z, s <= t -> speed t <= speed s) /\
  (forall fuel now p st p' st' c,
      tick random fuel now p st = Ret (p', st', c) ->
      score st' <> score st ->
      score st' = score st + 1 /\ tickMs st' = speed (score st')) /\
  (forall p, reachable random p ->
             forall st, stateRef p = Some st ->
                        tickMs st = speed (score st) /\ 80 <= tickMs st <= 170).
Proof.
  split; [ | split; [ | split; [ | split; [ | split; [ | split; [ | split]]]]]].
  - intros s. rewrite speed_closed_form.
    unfold Qdiv. unfold Qeq, Qminus, Qplus, Qmult, Qopp, inject_Z.
    cbn [Qnum Qden Qinv]. lia.
  - intros s Hs. rewrite speed_closed_form. lia.
  - reflexivity.
  - reflexivity.
  - reflexivity.
  - intros s t Hst. rewrite !speed_closed_form. lia.
  - exact tick_score_speed.
  - intros p Hr st Hst.
    destruct (reachable_Tuned p Hr st Hst) as [Hsc [Ht _]].
    split; [assumption | ]. rewrite Ht, speed_closed_form. lia.
Qed.

(** ** Growth and movement, the claim (C4) *)

(** C4: on a collision tick the snake is unchanged; on a tick with no
    collision and no food the candidate is added at the head and the last
    cell removed, so the length is unchanged and so is the score; on a tick
    whose candidate is the food cell the candidate is added and the tail
    kept, the length grows by exactly 1 and the score by 1 (and the tick
    does return when the source is fair and a cell stays free).  A
    candidate on food that lies in the grid and off the snake is never a
    collision, and the food of every reachable state lies so, before and
    after every tick.  In
    particular the snake (7,7),(6,7) moving right onto food at (8,7) on the
    14 by 14 grid becomes (8,7),(7,7),(6,7) with score 1. *)
Theorem tick_growth_and_movement :
  (forall now p st nh,
      candidate st = Some nh ->
      (collides st nh = true ->
       forall fuel, exists p' st',
           tick random fuel now p st = Ret (p', st', Break) /\
           snake st' = snake st /\ score st' = score st) /\
      (collides st nh = false -> nh <> food st ->
       forall fuel, exists p' st',
           tick random fuel now p st = Ret (p', st', Next) /\
           snake st' = nh :: removelast (snake st) /\
           length (snake st') = length (snake st) /\
           score st' = score st) /\
      (collides st nh = false -> nh = food st ->
       (forall fuel p' st' c,
           tick random fuel now p st = Ret (p', st', c) ->
           c = Next /\ snake st' = nh :: snake st /\
           length (snake st') = S (length (snake st)) /\
           score st' = score st + 1) /\
       (0 < gridSize st -> Fair random (gridSize st) (drawn p) ->
        Z.of_nat (length (snake st)) + 1 < gridSize st * gridSize st ->
        exists fuel p' st', forall fuel', (fuel <= fuel')%nat ->
            tick random fuel' now p st = Ret (p', st', Next))) /\
      (inGrid (gridSize st) (food st) -> ~ In (food st) (snake st) ->
       nh = food st -> collides st nh = false)) /\
  (inRange random ->
   (forall p, reachable random p ->
              forall st, stateRef p = Some st ->
                         inGrid (gridSize st) (food st) /\
                         ~ In (food st) (snake st)) /\
   (forall fuel now p st p' st' c,
       FoodInv st -> tick random fuel now p st = Ret (p', st', c) ->
       FoodInv st')) /\
  (forall now p st,
      gridSize st = 14 ->
      snake st = [ {| x := 7; y := 7 |}; {| x := 6; y := 7 |} ] ->
      dir (commitDir st) = {| x := 1; y := 0 |} ->
      food st = {| x := 8; y := 7 |} ->
      score st = 0 ->
      (forall fuel p' st' c,
          tick random fuel now p st = Ret (p', st', c) ->
          snake st' = [ {| x := 8; y := 7 |}; {| x := 7; y := 7 |};
                        {| x := 6; y := 7 |} ] /\
          score st' = 1) /\
      (Fair random 14 (drawn p) ->
       exists fuel p' st', forall fuel', (fuel <= fuel')%nat ->
           tick random fuel' now p st = Ret (p', st', Next))).
Proof.
  split.
  - intros now p st nh Hc. split; [ | split; [ | split]].
    + intros Hcol fuel. apply tick_collision_snake with (nh := nh); assumption.
    + intros Hcol Hf fuel. apply tick_move_result; assumption.
    + intros Hcol Hf. split.
      * intros fuel p' st' c H.
        destruct (tick_eat_result fuel now p st nh p' st' c Hc Hcol Hf H)
          as [Hn [Hs [Hl [Hsc _]]]].
        auto.
      * intros Hn Hfair Hroom.
        apply tick_eat_returns with (nh := nh); assumption.
    + intros Hg Hfree Hf. apply food_no_collision; assumption.
  - split.
    { intros Hrange. split.
      - intros p Hr st Hst.
        destruct (reachable_FoodInv p Hrange Hr st Hst) as [_ [Hg Hfree]].
        auto.
      - intros fuel now p st p' st' c. apply tick_FoodInv; assumption. }
    intros now p st Hn Hs Hd Hf Hsc.
    assert (candidate st = Some {| x := 8; y := 7 |}) as Hc
      by (unfold candidate; rewrite Hs, Hd; reflexivity).
    assert (collides st {| x := 8; y := 7 |} = false) as Hcol
      by (unfold collides; rewrite Hn, Hs; reflexivity).
    split.
    + intros fuel p' st' c H.
      destruct (tick_eat_result fuel now p st _ p' st' c Hc Hcol (eq_sym Hf) H)
        as [_ [Hs' [_ [Hsc' _]]]].
      rewrite Hs', Hsc', Hs, Hsc. auto.
    + intros Hfair.
      apply tick_eat_returns with (nh := {| x := 8; y := 7 |});
        try assumption; try (symmetry; assumption).
      * rewrite Hn; lia.
      * rewrite Hn; assumption.
      * rewrite Hn, Hs. cbn. lia.
Qed.

End Claims.

Example stringToNumber_samples :
  stringToNumber "12" = Finite 12 /\ stringToNumber " 7 " = Finite 7 /\
  stringToNumber "" = Finite 0 /\ stringToNumber "abc" = NaN /\
  stringToNumber "12px" = NaN /\ stringToNumber "0x1f" = Finite 31 /\
  stringToNumber "-Infinity" = Infinity true /\
  stringToNumber "1e3" = Finite 1000 /\ stringToNumber "." = NaN /\
  isFinite (stringToNumber "1e308") = true /\
  isFinite (stringToNumber "1e309") = false.
Proof. vm_compute. repeat split. Qed.

(** C9 as stated fails: with the text -5 in the slot the best score loaded
    at startup is -5, which is not a non-negative integer. *)
Lemma initialBest_negative_slot :
  initialBest (Some (slot "snake_best" "-5")) "snake_best" = Finite (-5) /\
  ~ nonNegativeInteger (initialBest (Some (slot "snake_best" "-5")) "snake_best").
Proof.
  split; [vm_compute; reflexivity | ].
  replace (initialBest (Some (slot "snake_best" "-5")) "snake_best")
    with (Finite (-5)) by (vm_compute; reflexivity).
  intros [n [Hn [q [Hq He]]]]. inversion Hq; subst q.
  unfold Qeq in He; simpl in He. lia.
Qed.

(** A fraction in the slot is loaded as it is, too. *)
Example initialBest_fraction_slot :
  initialBest (Some (slot "snake_best" "2.5")) "snake_best" = Finite 2.5.
Proof. vm_compute. reflexivity. Qed.

(** C9, amended: whatever the slot holds, the best score loaded at startup
    is a finite number.  It is 0 when there is no window, when the slot is
    empty, and when the stored text converts to not-a-number or to an
    infinity; otherwise it is the finite number the text converts to. *)
Theorem initialBest_finite :
  forall (window : option Storage) (key : string),
    exists q : Q,
      initialBest window key = Finite q /\
      (window = None -> q = 0%Q) /\
      (forall ls, window = Some ls -> ls key = None -> q = 0%Q) /\
      (forall ls, window = Some ls ->
                  isFinite (Number (ls key)) = false -> q = 0%Q) /\
      (forall ls v, window = Some ls ->
                    Number (ls key) = Finite v -> q = v).
Proof.
  intros [ls | ] key; cbn [initialBest].
  - destruct (Number (ls key)) as [ | neg | v] eqn:E; cbn [isFinite].
    + exists 0%Q. split; [reflexivity | ].
      repeat split; try discriminate; try reflexivity.
      intros ls' v H Hv. inversion H; subst. congruence.
    + exists 0%Q. split; [reflexivity | ].
      repeat split; try discriminate; try reflexivity.
      intros ls' v H Hv. inversion H; subst. congruence.
    + exists v. split; [reflexivity | ].
      repeat split; try discriminate.
      * intros ls' H Hk. inversion H; subst. rewrite Hk in E.
        inversion E; reflexivity.
      * intros ls' H Hf. inversion H; subst. rewrite E in Hf. discriminate.
      * intros ls' v' H Hv. inversion H; subst. congruence.
  - exists 0%Q. repeat split; try discriminate; reflexivity.
Qed.

(** * Concrete runs *)

(** C2 on the two scenarios of the specification: the head leaves the grid
    at x = -1 with no grace left, and the head runs into its neck with 120
    ms of grace left. *)
Lemma collision_grace_policy_witness :
  (exists p' st',
      tick sweep 0 1234%Q wallPage wallState = Ret (p', st', Break) /\
      gameOver p' = true /\ running p' = false /\
      best p' = Qmax 2 (inject_Z 3) /\
      snake st' = snake wallState /\
      (forall fuel' ts now' ctx,
          exists q, step sweep fuel' ts now' ctx (set_stateRef (Some st') p')
                    = Ret q /\
                    stateRef q = Some st' /\ gameOver q = true)) /\
  (exists p' st',
      tick sweep 0 1234%Q neckPage neckState = Ret (p', st', Break) /\
      gameOver p' = false /\ running p' = true /\ best p' = 2%Q /\
      grace st' = 0%Q /\ snake st' = snake neckState).
Proof.
  split.
  - apply (proj1 (collision_grace_policy sweep 0%nat 1234%Q wallPage wallState
                    {| x := -1; y := 7 |} eq_refl eq_refl)).
    unfold Qle; simpl; lia.
  - apply (proj2 (collision_grace_policy sweep 0%nat 1234%Q neckPage neckState
                    {| x := 6; y := 7 |} eq_refl eq_refl)).
    unfold Qlt; simpl; lia.
Defined.

(** C3 on the curled snake: the candidate is the last cell of the snake,
    and the tick is a collision. *)
Lemma collision_test_on_pre_move_body_witness :
  candidate curledState = Some (last (snake curledState) dirUp) /\
  exists p' st',
    tick sweep 0 0%Q freshPage curledState = Ret (p', st', Break) /\
    snake st' = snake curledState.
Proof.
  split; [reflexivity | ].
  apply (proj2 (proj2 (proj2 (proj2 (collision_test_on_pre_move_body sweep))))
           0%nat 0%Q freshPage curledState dirUp).
  reflexivity.
Defined.

(** C5 on the fresh state with the left arrow pending: the direction stays
    right. *)
Lemma commit_never_reverses_witness :
  opposite dirLeft (dir freshState) = true /\
  dir (commitDir (set_nextDir dirLeft freshState)) = dirRight.
Proof.
  split; [reflexivity | ].
  apply (proj1 (commit_never_reverses sweep (set_nextDir dirLeft freshState))).
  reflexivity.
Defined.

(** C4 on the scenario of the specification, with the sweeping source. *)
Lemma tick_growth_and_movement_witness :
  (forall fuel p' st' c,
      tick sweep fuel 0%Q freshPage foodAheadState = Ret (p', st', c) ->
      snake st' = [ {| x := 8; y := 7 |}; {| x := 7; y := 7 |};
                    {| x := 6; y := 7 |} ] /\
      score st' = 1) /\
  (exists fuel p' st', forall fuel', (fuel <= fuel')%nat ->
      tick sweep fuel' 0%Q freshPage foodAheadState = Ret (p', st', Next)).
Proof.
  destruct (proj2 (proj2 (tick_growth_and_movement sweep)) 0%Q freshPage
              foodAheadState
              eq_refl eq_refl eq_refl eq_refl eq_refl) as [H1 H2].
  split; [exact H1 | exact (H2 sweep_fair)].
Defined.

(** C6 on the 14 by 14 grid with the initial snake and the sweeping
    source. *)
Lemma randFood_returns_free_cell_witness :
  (exists fuel f j,
      inGrid 14 f /\ ~ In f initialSnake /\
      forall fuel', (fuel <= fuel')%nat ->
                    randFood sweep fuel' 14 initialSnake 0 = Ret (f, j)) /\
  (forall fuel f j,
      randFood sweep fuel 14 initialSnake 0 = Ret (f, j) ->
      inGrid 14 f /\ ~ In f initialSnake /\ hitSelf initialSnake f = false).
Proof.
  apply (randFood_returns_free_cell sweep 14 initialSnake 0).
  - lia.
  - exact sweep_inRange.
  - exact sweep_fair.
  - vm_compute. reflexivity.
Defined.

(** C10 on a page in the middle of a game, with the sweeping source. *)
Lemma reset_initial_configuration_witness :
  (exists fuel p', forall fuel', (fuel <= fuel')%nat ->
      reset sweep fuel' 300 280 280 wallPage = Ret p') /\
  (forall fuel p',
      reset sweep fuel 300 280 280 wallPage = Ret p' ->
      exists st,
        stateRef p' = Some st /\
        gridSize st = 14 /\
        snake st = [ {| x := 7; y := 7 |}; {| x := 6; y := 7 |} ] /\
        dir st = {| x := 1; y := 0 |} /\
        nextDir st = {| x := 1; y := 0 |} /\
        score st = 0 /\ tickMs st = 170 /\ grace st = 0%Q /\
        ~ In (food st) (snake st) /\
        gameOver p' = false).
Proof.
  apply (reset_initial_configuration sweep 300 280 280 wallPage).
  exact sweep_fair.
Defined.

(** Playing a list of events from a reachable page ends in a reachable
    page. *)
Lemma play_reachable fuel es :
  forall p p', reachable sweep p -> play fuel es p = Ret p' ->
               reachable sweep p'.
Proof.
  induction es as [| e es IH]; intros p p' Hr; simpl.
  - intros H; inversion H; subst; assumption.
  - destruct (handle sweep fuel e p) as [q | | ] eqn:He; simpl;
      try discriminate.
    apply IH. eapply reach_event; eassumption.
Qed.

Example shortGame_runs :
  exists p, play 5 shortGame (initialPage 0 0) = Ret p /\
            stateRef p = Some shortGameState.
Proof. eexists. split; vm_compute; reflexivity. Qed.

(** C8 on the state the short game ends in. *)
Lemma play_invariant_witness : Inv shortGameState.
Proof.
  destruct shortGame_runs as [p [Hp Hst]].
  apply (proj1 (play_invariant sweep) p).
  - apply (play_reachable 5 shortGame (initialPage 0 0) p);
      [apply reach_init | exact Hp].
  - exact Hst.
Defined.

(** One frame two seconds after the first runs the catch-up loop until the
    snake meets the right wall: six moves, then the tick that ends the
    game. *)
Example long_frame_ends_game :
  exists p st,
    play 10 [ Mount 300 280 280; Frame 16 16 true; Frame 2016 2020 true ]
         (initialPage 0 0) = Ret p /\
    stateRef p = Some st /\
    snake st = [ {| x := 13; y := 7 |}; {| x := 12; y := 7 |} ] /\
    gameOver p = true /\ running p = false /\
    gameOverAtRef p = Some 2020%Q /\ (accRef p == 2000 - 7 * 170)%Q.
Proof.
  eexists. eexists. split; [vm_compute; reflexivity | ].
  split; [vm_compute; reflexivity | ].
  vm_compute. repeat split; discriminate.
Qed.

(** * Further properties of the code *)

(** ** Score, length and shape of the snake *)

Lemma snake_fits (n : Z) (s : list Vec) :
  NoDup s -> Forall (inGrid n) s -> Z.of_nat (length s) <= Z.max 0 n * Z.max 0 n.
Proof.
  intros Hnd Hin.
  assert (incl s (cells n)) as Hincl.
  { intros c Hc. apply inGrid_cells. rewrite Forall_forall in Hin. auto. }
  pose proof (NoDup_incl_length Hnd Hincl) as Hle.
  unfold cells in Hle. rewrite length_map, length_seq in Hle. lia.
Qed.

Lemma tick_score_length (random : nat -> Q) fuel now p st p' st' c :
  score st = Z.of_nat (length (snake st)) - 2 ->
  tick random fuel now p st = Ret (p', st', c) ->
  score st' = Z.of_nat (length (snake st')) - 2.
Proof.
  intros Hs H. apply tick_Ticks in H.
  destruct H as [nh Hc _ _ | nh Hc _ _ | nh Hc _ _ | nh fuel' f i Hc _ _ _];
    cbn [score snake set_snake set_grace grown set_tickMs set_food set_score];
    rewrite ?commitDir_score, ?commitDir_snake; try assumption.
  - pose proof (removelast_length (snake st) (candidate_snake st nh Hc)).
    cbn [length]. lia.
  - cbn [length]. lia.
Qed.

(** X1: the score is the number of cells the snake has grown by: in every
    reachable state it is the length of the snake less the two cells of
    the start, and so between 0 and 194. *)
Theorem score_counts_growth (random : nat -> Q) :
  forall p, reachable random p ->
  forall st, stateRef p = Some st ->
             score st = Z.of_nat (length (snake st)) - 2 /\
             0 <= score st <= 194.
Proof.
  intros p Hr st Hst.
  assert (score st = Z.of_nat (length (snake st)) - 2) as Hs.
  { revert st Hst. change (pageInv (fun st => score st =
                                      Z.of_nat (length (snake st)) - 2) p).
    apply (reachable_inv random); try assumption.
    - apply tick_score_length.
    - intros g st _ H; exact H.
    - intros n st H; exact H.
    - intros d st _ H; exact H.
    - intros fuel i f j c _. reflexivity. }
  split; [assumption | ].
  destruct (reachable_StrongInv random p Hr st Hst) as [[Hg [Hnd [Hlen _]]] _].
  pose proof (snake_fits (gridSize st) (snake st) Hnd Hg) as Hfit.
  assert (gridSize st = 14) as HN.
  { revert st Hst Hs Hg Hnd Hlen Hfit. intros st Hst _ _ _ _ _. revert st Hst.
    change (pageInv (fun st => gridSize st = 14) p).
    apply (reachable_inv random); try assumption.
    - intros fuel now q st q' st' c Hn H.
      destruct (tick_dir random fuel now q st q' st' c H) as [_ [_ E]].
      congruence.
    - intros g st _ H; exact H.
    - intros n st H; exact H.
    - intros d st _ H; exact H.
    - intros fuel i f j c _. reflexivity. }
  rewrite HN in Hfit. lia.
Qed.

Lemma Chain_removelast (l : list Vec) : Chain l -> Chain (removelast l).
Proof.
  induction l as [| a l IH]; [auto | ].
  destruct l as [| b l]; [auto | ].
  intros [Hab Hc]. rewrite removelast_cons by discriminate.
  destruct l as [| c l]; [exact I | ].
  rewrite removelast_cons by discriminate.
  split; [assumption | ].
  rewrite <- (removelast_cons b (c :: l)) by discriminate.
  apply IH. assumption.
Qed.

Lemma add_unit_adjacent (h d : Vec) : isUnit d = true -> adjacent (add h d) h.
Proof.
  rewrite isUnit_cases. unfold adjacent.
  intros [-> | [-> | [-> | ->]]]; simpl; lia.
Qed.

Lemma tick_Chain (random : nat -> Q) fuel now p st p' st' c :
  StrongInv st /\ Chain (snake st) ->
  tick random fuel now p st = Ret (p', st', c) ->
  StrongInv st' /\ Chain (snake st').
Proof.
  intros [Hinv Hch] H. split; [eapply tick_StrongInv; eassumption | ].
  destruct Hinv as [[_ [_ [Hlen Hd]]] Hn].
  pose proof (commitDir_unit st Hd Hn) as Hu.
  apply tick_Ticks in H.
  destruct H as [nh Hc _ _ | nh Hc _ _ | nh Hc _ _ | nh fuel' f i Hc _ _ _];
    cbn [snake set_snake set_grace grown set_tickMs set_food set_score];
    rewrite ?commitDir_snake; try assumption;
    unfold candidate in Hc;
    destruct (snake st) as [| h t] eqn:Hs; try discriminate;
    injection Hc as <-.
  - destruct t as [| b t]; [cbn in Hlen; lia | ].
    rewrite removelast_cons by discriminate.
    split; [apply add_unit_adjacent; assumption | ].
    rewrite <- (removelast_cons h (b :: t)) by discriminate.
    apply Chain_removelast. assumption.
  - split; [apply add_unit_adjacent; assumption | assumption].
Qed.

(** X2: the snake is a path: in every reachable state each cell of the snake
    is side by side with the next one. *)
Theorem snake_is_a_path (random : nat -> Q) :
  forall p, reachable random p ->
  forall st, stateRef p = Some st -> Chain (snake st).
Proof.
  intros p Hr st Hst.
  assert (pageInv (fun st => StrongInv st /\ Chain (snake st)) p) as H.
  { apply (reachable_inv random); try assumption.
    - apply tick_Chain.
    - intros g s _ K; exact K.
    - intros n s K; exact K.
    - intros d s Hd [[Hi _] Hc]. split; [split; [exact Hi | exact Hd] | exact Hc].
    - intros fuel i f j c _. split; [apply resetState_StrongInv | ].
      cbn. split; [reflexivity | exact I]. }
  apply (H st Hst).
Qed.

(** ** The food spawner draws until the first free cell *)

(** X3: [randFood] returns exactly the first drawn cell that is off the snake:
    every earlier draw lay on the snake, and two random values are used up
    per draw. *)
Theorem randFood_first_free (random : nat -> Q) :
  forall fuel N s i f j,
    randFood random fuel N s i = Ret (f, j) <->
    exists k, (k < fuel)%nat /\
              (forall k', (k' < k)%nat -> In (sample random N (i + 2 * k')) s) /\
              ~ In (sample random N (i + 2 * k)) s /\
              f = sample random N (i + 2 * k) /\ j = (i + 2 * k + 2)%nat.
Proof.
  induction fuel as [| fuel IH]; intros N s i f j.
  - split; [discriminate | intros [k [Hk _]]; lia].
  - cbn [randFood]. fold (hitSelf s (sample random N i)).
    destruct (hitSelf s (sample random N i)) eqn:E; cbn [negb].
    + apply hitSelf_In in E. rewrite IH. split.
      * intros [k [Hk [Hbefore [Hfree [Hf Hj]]]]]. exists (S k).
        replace (i + 2 * S k)%nat with (S (S i) + 2 * k)%nat by lia.
        repeat split; try assumption; try lia.
        intros k' Hk'. destruct k' as [| k'].
        -- rewrite Nat.add_0_r. assumption.
        -- replace (i + 2 * S k')%nat with (S (S i) + 2 * k')%nat by lia.
           apply Hbefore. lia.
      * intros [k [Hk [Hbefore [Hfree [Hf Hj]]]]]. destruct k as [| k].
        -- rewrite Nat.add_0_r in Hfree. contradiction.
        -- exists k.
           replace (S (S i) + 2 * k)%nat with (i + 2 * S k)%nat by lia.
           repeat split; try assumption; try lia.
           intros k' Hk'.
           replace (S (S i) + 2 * k')%nat with (i + 2 * S k')%nat by lia.
           apply (Hbefore (S k')). lia.
    + apply hitSelf_not_In in E. split.
      * intros H. inversion H; subst. exists 0%nat.
        rewrite Nat.add_0_r. repeat split; try assumption; try lia.
      * intros [k [Hk [Hbefore [Hfree [Hf Hj]]]]]. destruct k as [| k].
        -- rewrite Nat.add_0_r in Hf. subst. repeat f_equal. lia.
        -- exfalso. apply E. specialize (Hbefore 0%nat).
           rewrite Nat.add_0_r in Hbefore. apply Hbefore. lia.
Qed.

(** ** Input only steers *)

Lemma sameBoard_refl st : sameBoard st st.
Proof. unfold sameBoard. tauto. Qed.

Lemma samePage_refl p : samePage p p.
Proof. unfold samePage. tauto. Qed.

(** X4: neither a key nor a touch writes anything but the pending direction,
    the grace timer and the start of the touch: the flags of the page, the
    best score, the clock and the accumulator stay as they are, a page
    without a game state stays without one, and the board of the game state
    (grid, snake, current direction, food, score, tick interval) is
    untouched. *)
Theorem input_only_steers :
  forall (p : Page),
    (forall code,
        samePage p (onKey code p) /\
        touchStartRef (onKey code p) = touchStartRef p /\
        (stateRef p = None -> stateRef (onKey code p) = None) /\
        (forall st, stateRef p = Some st ->
                    exists st', stateRef (onKey code p) = Some st' /\
                                sameBoard st st')) /\
    (forall touch,
        samePage p (handleTouchStart touch p) /\
        stateRef (handleTouchStart touch p) = stateRef p) /\
    (forall touch,
        samePage p (handleTouchEnd touch p) /\
        (stateRef p = None -> stateRef (handleTouchEnd touch p) = None) /\
        (forall st, stateRef p = Some st ->
                    exists st', stateRef (handleTouchEnd touch p) = Some st' /\
                                sameBoard st st')).
Proof.
  intros p.
  assert (forall q, stateRef q = stateRef p ->
                    (stateRef p = None -> stateRef q = None) /\
                    (forall st, stateRef p = Some st ->
                                exists st', stateRef q = Some st' /\
                                            sameBoard st st')) as Hkept.
  { intros q E. rewrite E. split; [auto | ].
    intros st Hst. exists st. split; [assumption | apply sameBoard_refl]. }
  assert (forall q st st',
             stateRef p = Some st -> stateRef q = Some st' -> sameBoard st st' ->
             (stateRef p = None -> stateRef q = None) /\
             (forall st, stateRef p = Some st ->
                         exists st', stateRef q = Some st' /\
                                     sameBoard st st')) as Hsteer.
  { intros q st st' Hst Hq Hb. split; [congruence | ].
    intros st0 E. rewrite Hst in E. inversion E; subst. exists st'. auto. }
  split; [ | split].
  - intros code. unfold onKey.
    destruct (getDirForCode code) as [d | ];
      [ | split; [apply samePage_refl | split; [reflexivity | auto]]].
    destruct (stateRef p) as [st | ] eqn:Hst;
      [ | split; [apply samePage_refl | split; [reflexivity | auto]]].
    split; [unfold samePage; cbn; tauto | ]. split; [reflexivity | ].
    eapply (Hsteer _ st); [reflexivity | reflexivity | ].
    destruct (negb (opposite d (dir st))); unfold sameBoard; cbn; tauto.
  - intros touch. destruct touch; split; try reflexivity;
      unfold samePage; cbn; tauto.
  - intros touch. unfold handleTouchEnd.
    destruct (touchStartRef p) as [start | ];
      [ | split; [apply samePage_refl | auto]].
    destruct touch as [t | ]; [ | split; [apply samePage_refl | auto]].
    destruct (swipeDirection _ _) as [d | ];
      [ | split; [unfold samePage; cbn; tauto | apply Hkept; reflexivity]].
    destruct (stateRef p) as [st | ] eqn:Hst.
    + destruct (negb (opposite d (dir st))).
      * split; [unfold samePage; cbn; tauto | ].
        eapply (Hsteer _ st); [reflexivity | reflexivity | ].
        unfold sameBoard; cbn; tauto.
      * split; [unfold samePage; cbn; tauto | ].
        apply Hkept. cbn. congruence.
    + split; [unfold samePage; cbn; tauto | ].
      apply Hkept. cbn. congruence.
Qed.

(** ** Swipes *)

Lemma Qle_bool_false (a b : Q) : Qle_bool a b = false <-> (b < a)%Q.
Proof.
  split.
  - intros H. destruct (Qlt_le_dec b a) as [Hlt | Hle]; [assumption | ].
    apply Qle_bool_iff in Hle. congruence.
  - intros H. destruct (Qle_bool a b) eqn:E; [ | reflexivity].
    apply Qle_bool_iff in E. exfalso. exact (Qlt_not_le _ _ H E).
Qed.

(** X5: a swipe is recognised exactly when its larger displacement reaches 30.
    The direction it is given is a unit vector along the axis of the larger
    displacement (the vertical one on a tie), pointing the way the finger
    went: the displacement along it is that larger displacement. *)
Theorem swipe_follows_the_finger :
  forall dx dy : Q,
    (swipeDirection dx dy = None <-> (Qmax (Qabs dx) (Qabs dy) < 30)%Q) /\
    (forall d, swipeDirection dx dy = Some d ->
               isUnit d = true /\
               (inject_Z (x d) * dx + inject_Z (y d) * dy ==
                Qmax (Qabs dx) (Qabs dy))%Q /\
               ((Qabs dy < Qabs dx)%Q <-> y d = 0)).
Proof.
  intros dx dy. unfold swipeDirection, minSwipeDistance.
  assert ((0 <= dx /\ Qabs dx == dx) \/ (dx <= 0 /\ Qabs dx == - dx))%Q as Hx
    by (apply Qabs_case; intros; [left | right]; split;
        assumption || reflexivity).
  assert ((0 <= dy /\ Qabs dy == dy) \/ (dy <= 0 /\ Qabs dy == - dy))%Q as Hy
    by (apply Qabs_case; intros; [left | right]; split;
        assumption || reflexivity).
  pose proof (Q.max_spec (Qabs dx) (Qabs dy)) as Hm.
  set (ax := Qabs dx) in *. set (ay := Qabs dy) in *.
  set (m := Qmax ax ay) in *.
  destruct (Qle_bool 30 m) eqn:E30; cbn [negb];
    [apply Qle_bool_iff in E30 | apply Qle_bool_false in E30].
  2: { split; [split; [intros _; assumption | reflexivity] | discriminate]. }
  destruct (Qle_bool ax ay) eqn:Exy; cbn [negb];
    [apply Qle_bool_iff in Exy | apply Qle_bool_false in Exy].
  - destruct (Qle_bool dy 0) eqn:Ey0; cbn [negb];
      [apply Qle_bool_iff in Ey0 | apply Qle_bool_false in Ey0].
    + split; [split; [discriminate | intros H; exfalso; lra] | ].
      intros d H. injection H as <-. split; [reflexivity | ].
      unfold dirUp; cbn [x y]. unfold inject_Z. split.
      * destruct Hm as [[? ?] | [? ?]], Hy as [[? ?] | [? ?]]; lra.
      * split; [intros H; exfalso; lra | discriminate].
    + split; [split; [discriminate | intros H; exfalso; lra] | ].
      intros d H. injection H as <-. split; [reflexivity | ].
      unfold dirDown; cbn [x y]. unfold inject_Z. split.
      * destruct Hm as [[? ?] | [? ?]], Hy as [[? ?] | [? ?]]; lra.
      * split; [intros H; exfalso; lra | discriminate].
  - destruct (Qle_bool dx 0) eqn:Ex0; cbn [negb];
      [apply Qle_bool_iff in Ex0 | apply Qle_bool_false in Ex0].
    + split; [split; [discriminate | intros H; exfalso; lra] | ].
      intros d H. injection H as <-. split; [reflexivity | ].
      unfold dirLeft; cbn [x y]. unfold inject_Z. split.
      * destruct Hm as [[? ?] | [? ?]], Hx as [[? ?] | [? ?]]; lra.
      * split; [reflexivity | intros _; assumption].
    + split; [split; [discriminate | intros H; exfalso; lra] | ].
      intros d H. injection H as <-. split; [reflexivity | ].
      unfold dirRight; cbn [x y]. unfold inject_Z. split.
      * destruct Hm as [[? ?] | [? ?]], Hx as [[? ?] | [? ?]]; lra.
      * split; [reflexivity | intros _; assumption].
Qed.

(** ** What a frame does to the page *)

Section Frames.

Variable random : nat -> Q.

(** The effect of one tick on the page and on the grace timer: either the
    game ends, or the flags and the best score are left alone. *)
Lemma tick_effect fuel now p st p' st' c :
  tick random fuel now p st = Ret (p', st', c) ->
  (accRef p' = accRef p - inject_Z (tickMs st))%Q /\
  ((c = Break /\ gameOver p' = true /\ running p' = false /\
    gameOverAtRef p' = Some now /\
    best p' = Qmax (best p) (inject_Z (score st')) /\
    grace st' = grace st) \/
   (gameOver p' = gameOver p /\ running p' = running p /\
    gameOverAtRef p' = gameOverAtRef p /\ best p' = best p /\
    ((c = Break /\ grace st' = 0%Q) \/ (c = Next /\ grace st' = grace st)))).
Proof.
  intros H. apply tick_Ticks in H.
  destruct H; cbn; rewrite ?commitDir_score, ?commitDir_grace;
    (split; [reflexivity | ]); [left | right | right | right]; tauto.
Qed.

Lemma loop_effect fuel now :
  forall p st p' st',
    loop random fuel now p st = Ret (p', st') ->
    gameOver p = false -> gameOverAtRef p = None ->
    (grace st' = grace st \/ grace st' = 0%Q) /\
    ((gameOver p' = false /\ gameOverAtRef p' = None /\
      running p' = running p /\ best p' = best p /\
      (Qle_bool (inject_Z (tickMs st')) (accRef p') = false \/
       grace st' = 0%Q)) \/
     (gameOver p' = true /\ running p' = false /\
      gameOverAtRef p' = Some now /\
      best p' = Qmax (best p) (inject_Z (score st')))).
Proof.
  induction fuel as [| fuel IH]; intros p st p' st'; cbn [loop].
  - destruct (Qle_bool _ _) eqn:E; [discriminate | ].
    intros H Hg Ha. inversion H; subst. split; [auto | ]. left. tauto.
  - destruct (Qle_bool _ _) eqn:E.
    2: { intros H Hg Ha. inversion H; subst. split; [auto | ]. left. tauto. }
    destruct (tick random fuel now p st) as [[[q st2] c] | | ] eqn:Ht;
      simpl; try discriminate.
    intros H Hg Ha.
    destruct (tick_effect fuel now p st q st2 c Ht)
      as [_ [[-> [Ho [Hr [Hat [Hb Hgr]]]]]
            | [Ho [Hr [Hat [Hb [[-> Hgr] | [-> Hgr]]]]]]]].
    + inversion H; subst. split; [auto | ]. right. tauto.
    + inversion H; subst. split; [auto | ]. left.
      rewrite Ho, Hat, Hr, Hb. tauto.
    + apply IH in H; [ | congruence | congruence].
      destruct H as [Hgrace Hrest]. split.
      * rewrite <- Hgr. assumption.
      * rewrite <- Hr, <- Hb. assumption.
Qed.

(** What a frame that returns has done to the page and the grace timer. *)
Lemma step_effect fuel ts now ctx p p' :
  step random fuel ts now ctx p = Ret p' ->
  gameOver p = true <-> gameOverAtRef p <> None ->
  (p' = p \/ p' = set_lastTsRef ts p) \/
  (exists st st' dt,
      stateRef p = Some st /\ stateRef p' = Some st' /\
      running p = true /\ gameOver p = false /\
      dt = (if Qeq_bool (lastTsRef p) 0 then 0 else ts - lastTsRef p)%Q /\
      (grace st' = Qmax 0 (grace st - dt) \/ grace st' = 0%Q) /\
      ((gameOver p' = false /\ gameOverAtRef p' = None /\
        running p' = true /\ best p' = best p /\
        (Qle_bool (inject_Z (tickMs st')) (accRef p') = false \/
         grace st' = 0%Q)) \/
       (gameOver p' = true /\ running p' = false /\
        gameOverAtRef p' = Some now /\
        best p' = Qmax (best p) (inject_Z (score st'))))).
Proof.
  unfold step. intros H Hflags.
  destruct (stateRef p) as [st | ] eqn:Hst;
    [ | inversion H; auto].
  destruct ctx; cbn [negb] in H; [ | inversion H; auto].
  cbn [running gameOver set_lastTsRef] in H.
  destruct (running p) eqn:Hrun; cbn [andb] in H; [ | inversion H; auto].
  destruct (gameOver p) eqn:Hover; cbn [negb] in H; [inversion H; auto | ].
  match type of H with
  | context [loop random fuel now ?q ?s] =>
      destruct (loop random fuel now q s) as [[q' st'] | | ] eqn:Hl
  end; simpl in H; try discriminate.
  inversion H; subst; clear H. right.
  apply loop_effect in Hl; [ | cbn; assumption | ].
  2: { cbn. destruct (gameOverAtRef p) eqn:Ha; [ | reflexivity].
       exfalso. assert (false = true) by (apply Hflags; discriminate).
       discriminate. }
  cbn in Hl. destruct Hl as [Hgrace Hrest].
  rewrite Hrun in Hrest.
  exists st, st'. eexists.
  split; [reflexivity | ]. split; [reflexivity | ].
  split; [reflexivity | ]. split; [reflexivity | ].
  split; [reflexivity | ]. split; [exact Hgrace | exact Hrest].
Qed.

Lemma reset_flags fuel t w h p p' :
  reset random fuel t w h p = Ret p' ->
  gameOver p' = false /\ gameOverAtRef p' = None /\ best p' = best p /\
  running p' = running p.
Proof.
  intros H. apply reset_result in H. destruct H as [f [i [_ ->]]].
  cbn. unfold resizeCanvas. destruct (stateRef p); cbn; tauto.
Qed.

Lemma handle_Settled fuel e p p' :
  Settled p -> handle random fuel e p = Ret p' -> Settled p'.
Proof.
  intros [Hrun [Hat Hbest]] H.
  assert (forall q, (forall st', stateRef q = Some st' ->
                                 exists st, stateRef p = Some st /\
                                            score st' = score st) ->
                    running q = running p /\ gameOver q = gameOver p /\
                    best q = best p /\
                    gameOverAtRef q = gameOverAtRef p -> Settled q) as Hsame.
  { intros q Hq [E1 [E2 [E3 E6]]]. unfold Settled.
    rewrite E1, E2, E3, E6. repeat split; try tauto.
    intros st' Hst' Ho. destruct (Hq st' Hst') as [st [Hst ->]]. auto. }
  assert (forall q, gameOver q = false -> gameOverAtRef q = None -> Settled q)
    as Hfresh.
  { intros q Ho Ha. unfold Settled. rewrite Ho, Ha.
    repeat split; try discriminate; try tauto. }
  destruct e; simpl in H.
  - unfold start in H.
    destruct (reset random fuel _ _ _ _) as [q | | ] eqn:Hr; simpl in H;
      try discriminate.
    inversion H; subst. apply reset_flags in Hr.
    apply Hfresh; cbn; tauto.
  - unfold start in H.
    destruct (reset random fuel _ _ _ _) as [q | | ] eqn:Hr; simpl in H;
      try discriminate.
    inversion H; subst. apply reset_flags in Hr.
    apply Hfresh; cbn; tauto.
  - inversion H; subst. apply Hsame.
    + unfold resizeCanvas. destruct (stateRef p) as [st | ] eqn:Hst.
      * intros st' E. cbn in E. inversion E; subst. exists st. auto.
      * intros st' E. congruence.
    + unfold resizeCanvas. destruct (stateRef p); cbn; tauto.
  - inversion H; subst. apply Hsame.
    + unfold onKey. destruct (getDirForCode code) as [d | ];
        [ | intros st' E; exists st'; auto].
      destruct (stateRef p) as [st | ] eqn:Hst;
        [ | intros st' E; congruence].
      intros st' E. cbn in E. inversion E; subst. exists st.
      split; [reflexivity | ].
      destruct (negb (opposite d (dir st))); reflexivity.
    + unfold onKey. destruct (getDirForCode code);
        [destruct (stateRef p) | ]; cbn; tauto.
  - inversion H; subst. apply Hsame.
    + intros st' E. exists st'. destruct touch; auto.
    + destruct touch; cbn; tauto.
  - inversion H; subst. apply Hsame.
    + unfold handleTouchEnd.
      destruct (touchStartRef p); [ | intros st' E; exists st'; auto].
      destruct touch; [ | intros st' E; exists st'; auto].
      destruct (swipeDirection _ _) as [d | ];
        [ | intros st' E; exists st'; auto].
      destruct (stateRef p) as [st | ] eqn:Hst;
        [ | intros st' E; cbn in E; congruence].
      destruct (negb (opposite d (dir st))).
      * intros st' E. cbn in E. inversion E; subst. exists st. auto.
      * intros st' E. cbn in E. exists st'. split; [congruence | reflexivity].
    + unfold handleTouchEnd.
      destruct (touchStartRef p); [ | tauto].
      destruct touch; [ | tauto].
      destruct (swipeDirection _ _); [ | cbn; tauto].
      destruct (stateRef p) as [st | ]; [ | cbn; tauto].
      destruct (negb (opposite _ (dir st))); cbn; tauto.
  - apply step_effect in H; [ | assumption].
    destruct H as [[-> | ->] | [st [st' [dt [Hst [Hst' [Hr [Ho [_ [_ Hrest]]]]]]]]]].
    + unfold Settled; tauto.
    + apply Hsame; [ | cbn; tauto].
      intros st' E. exists st'. auto.
    + destruct Hrest as [[Ho' [Ha' _]] | [Ho' [Hr' [Ha' Hb']]]].
      * apply Hfresh; assumption.
      * unfold Settled. rewrite Ho', Hr', Ha'.
        repeat split; try discriminate; try reflexivity.
        intros st2 E _. rewrite Hst' in E. inversion E; subst.
        rewrite Hb'. apply Q.le_max_r.
Qed.

Lemma reachable_Settled p : reachable random p -> Settled p.
Proof.
  induction 1 as [best0 n | p fuel e p' Hr IH He].
  - unfold Settled. cbn. repeat split; try discriminate.
    intros H; contradiction H; reflexivity.
  - apply (handle_Settled fuel e p p' IH He).
Qed.

(** X6: the flags of a reachable page agree: a game that is over is not
    running, the time of death is set exactly when the game is over, and
    the best score is then at least the score of the game. *)
Theorem game_over_is_settled :
  forall p, reachable random p ->
            (gameOver p = true -> running p = false) /\
            (gameOver p = true <-> gameOverAtRef p <> None) /\
            (forall st, stateRef p = Some st -> gameOver p = true ->
                        (inject_Z (score st) <= best p)%Q).
Proof. exact reachable_Settled. Qed.

(** X7: the best score never goes down: whatever happens to a reachable page,
    the best score afterwards is at least the best score before. *)
Theorem best_never_decreases :
  forall p fuel e p',
    reachable random p ->
    handle random fuel e p = Ret p' ->
    (best p <= best p')%Q.
Proof.
  intros p fuel e p' Hr H.
  destruct (reachable_Settled p Hr) as [_ [Hat _]].
  destruct e; simpl in H.
  - unfold start in H.
    destruct (reset random fuel _ _ _ _) as [q | | ] eqn:Hq; simpl in H;
      try discriminate.
    inversion H; subst. apply reset_flags in Hq. cbn.
    destruct Hq as [_ [_ [-> _]]]. unfold resizeCanvas.
    destruct (stateRef p); apply Qle_refl.
  - unfold start in H.
    destruct (reset random fuel _ _ _ _) as [q | | ] eqn:Hq; simpl in H;
      try discriminate.
    inversion H; subst. apply reset_flags in Hq. cbn.
    destruct Hq as [_ [_ [-> _]]]. apply Qle_refl.
  - inversion H; subst.
    unfold resizeCanvas. destruct (stateRef p); apply Qle_refl.
  - inversion H; subst.
    unfold onKey. destruct (getDirForCode code); [destruct (stateRef p) | ];
      apply Qle_refl.
  - inversion H; subst. destruct touch; apply Qle_refl.
  - inversion H; subst. unfold handleTouchEnd.
    destruct (touchStartRef p); [ | apply Qle_refl].
    destruct touch; [ | apply Qle_refl].
    destruct (swipeDirection _ _); [ | apply Qle_refl].
    destruct (stateRef p) as [st | ]; [ | apply Qle_refl].
    destruct (negb (opposite _ (dir st))); apply Qle_refl.
  - apply step_effect in H; [ | assumption].
    destruct H as [[-> | ->] | [st [st' [dt [_ [_ [_ [_ [_ [_ Hrest]]]]]]]]]];
      try apply Qle_refl.
    destruct Hrest as [[_ [_ [_ [-> _]]]] | [_ [_ [_ ->]]]];
      [apply Qle_refl | apply Q.le_max_l].
Qed.

(** X8: a frame never raises the grace timer: on a reachable page, when the
    clock has not gone back, the timer after the frame lies between 0 and
    its value before. *)
Theorem frame_lowers_grace :
  forall fuel ts now ctx p p' st st',
    reachable random p ->
    step random fuel ts now ctx p = Ret p' ->
    stateRef p = Some st -> stateRef p' = Some st' ->
    (lastTsRef p <= ts)%Q ->
    (0 <= grace st' /\ grace st' <= grace st)%Q.
Proof.
  intros fuel ts now ctx p p' st st' Hr H Hst Hst' Hts.
  destruct (reachable_Tuned random p Hr st Hst) as [_ [_ Hg]].
  destruct (reachable_Settled p Hr) as [_ [Hat _]].
  apply step_effect in H; [ | assumption].
  destruct H as [[-> | ->] | [s [s' [dt [Hs [Hs' [_ [_ [Hdt [Hgrace _]]]]]]]]]].
  - assert (st' = st) as -> by congruence. split; [assumption | apply Qle_refl].
  - cbn in Hst'. assert (st' = st) as -> by congruence.
    split; [assumption | apply Qle_refl].
  - assert (s = st) as -> by congruence.
    assert (s' = st') as -> by congruence.
    assert (0 <= dt)%Q as Hpos.
    { subst dt. destruct (Qeq_bool (lastTsRef p) 0); [apply Qle_refl | lra]. }
    destruct Hgrace as [-> | ->]; [ | split; [apply Qle_refl | assumption]].
    split; [apply Q.le_max_l | ].
    apply Q.max_lub; [assumption | lra].
Qed.


(** *** A frame returns *)

(** The committed direction does not change from one tick to the next. *)
Lemma commit_stable fuel now p st p' st' c :
  isUnit (dir st) = true -> isUnit (nextDir st) = true ->
  tick random fuel now p st = Ret (p', st', c) ->
  dir (commitDir st') = dir (commitDir st).
Proof.
  intros Hd Hn H. destruct (tick_dir random fuel now p st p' st' c H)
    as [Ed [En _]].
  rewrite (commitDir_dir st'), Ed, En, (commitDir_dir st).
  destruct (opposite (nextDir st) (dir st)) eqn:E.
  - rewrite E. reflexivity.
  - rewrite (opposite_self_unit _ Hn). reflexivity.
Qed.

Lemma ahead_bound st :
  StrongInv st -> 0 <= ahead st <= gridSize st - 1.
Proof.
  intros [[Hg [_ [Hlen Hd]]] Hn]. unfold ahead.
  destruct (snake st) as [| h t]; [cbn in Hlen; lia | ].
  inversion Hg as [| ? ? [Hx Hy] _]; subst.
  repeat destruct (_ =? _); lia.
Qed.

(** What a tick that goes on has done: the head is one cell further along
    the committed direction. *)
Lemma tick_next_facts fuel now p st p' st' :
  StrongInv st ->
  tick random fuel now p st = Ret (p', st', Next) ->
  StrongInv st' /\ gridSize st' = gridSize st /\
  ahead st' = ahead st - 1 /\
  (length (snake st') <= S (length (snake st)))%nat /\
  exists k, drawn p' = (drawn p + 2 * k)%nat.
Proof.
  intros Hinv H.
  pose proof (tick_StrongInv random fuel now p st p' st' Next Hinv H) as Hinv'.
  destruct Hinv as [[Hg [_ [Hlen Hd]]] Hn].
  pose proof (commit_stable fuel now p st p' st' Next Hd Hn H) as Hdir.
  destruct (tick_dir random fuel now p st p' st' Next H) as [_ [_ EN]].
  split; [assumption | ]. split; [assumption | ].
  pose proof (commitDir_unit st Hd Hn) as Hu.
  assert (exists h t nh,
             snake st = h :: t /\ nh = add h (dir (commitDir st)) /\
             inGrid (gridSize st) nh /\
             (exists t', snake st' = nh :: t' /\
                         (length t' <= length (snake st))%nat) /\
             exists k, drawn p' = (drawn p + 2 * k)%nat) as K.
  { apply tick_Ticks in H.
    inversion H as [| | nh Hc Hcol Hf E1 E2 | nh fuel' f i Hc Hcol Hf Hr E1 E2];
      clear H.
    - destruct (proj1 (no_collision_free st nh) Hcol) as [Hw _].
      unfold candidate in Hc. destruct (snake st) as [| h t] eqn:Hs;
        [discriminate | ]. injection Hc as Hc.
      exists h, t, nh.
      split; [reflexivity | ]. split; [auto | ]. split; [assumption | ].
      split.
      + exists (removelast (h :: t)). split.
        * cbn [snake set_snake]. reflexivity.
        * assert (h :: t <> []) as Hne by discriminate.
          pose proof (removelast_length (h :: t) Hne) as Hrl.
          cbn [length] in *. lia.
      + exists 0%nat. cbn. lia.
    - destruct (proj1 (no_collision_free st nh) Hcol) as [Hw _].
      unfold candidate in Hc. destruct (snake st) as [| h t] eqn:Hs;
        [discriminate | ]. injection Hc as Hc.
      exists h, t, nh.
      split; [reflexivity | ]. split; [auto | ]. split; [assumption | ].
      split.
      + exists (h :: t). split; [ | cbn [length]; lia].
        cbn. rewrite ?Hs. reflexivity.
      + apply randFood_sound in Hr. destruct Hr as [k [_ [_ [Hi _]]]].
        exists (S k). cbn. lia. }
  destruct K as [h [t [nh [Hs [Hnh [[Hx Hy] [[t' [Hs' Hl]] Hk]]]]]]].
  split; [ | split; [rewrite Hs'; cbn [length]; lia | exact Hk]].
  unfold ahead. rewrite Hs', Hs, Hdir, EN. subst nh.
  apply isUnit_cases in Hu.
  destruct Hu as [E | [E | [E | E]]]; rewrite E in *; cbn in *; lia.
Qed.

Lemma loop_returns now :
  forall (m : nat) p st,
    StrongInv st -> 0 < gridSize st ->
    ahead st <= Z.of_nat m ->
    (forall j, Fair random (gridSize st) (drawn p + 2 * j)) ->
    Z.of_nat (length (snake st)) + Z.of_nat m + 1 < gridSize st * gridSize st ->
    exists fuel r, forall fuel', (fuel <= fuel')%nat ->
                   loop random fuel' now p st = Ret r.
Proof.
  induction m as [| m IH]; intros p st Hinv HN Hm Hfair Hroom.
  all: destruct (Qle_bool (inject_Z (tickMs st)) (accRef p)) eqn:E;
    [ | exists 0%nat, (p, st); intros fuel' _; destruct fuel'; cbn [loop];
        rewrite E; reflexivity].
  all: assert (exists nh, candidate st = Some nh) as [nh Hc]
      by (destruct Hinv as [[_ [_ [Hlen _]]] _]; unfold candidate;
          destruct (snake st); [cbn in Hlen; lia | eexists; reflexivity]).
  all: destruct (collides st nh) eqn:Hcol;
    [ destruct (tick_collision_snake random 0%nat now p st nh Hc Hcol)
        as [q [st2 [_ _]]];
      assert (exists q st2, forall f, tick random f now p st
                                      = Ret (q, st2, Break)) as [q' [st2' Ht]]
        by (destruct (Qle_bool (grace st) 0) eqn:Hg;
            eexists; eexists; intros f;
            [apply tick_game_over with (nh := nh)
            | apply tick_graced with (nh := nh)]; assumption);
      exists 1%nat, (q', st2'); intros fuel' Hle;
      destruct fuel' as [| f]; [lia | ];
      cbn [loop]; rewrite E, Ht; reflexivity
    | ].
  all: assert (exists fuel0 p1 st1, forall f, (fuel0 <= f)%nat ->
                 tick random f now p st = Ret (p1, st1, Next))
      as [fuel0 [p1 [st1 Ht]]].
  1, 3: destruct (EQ nh (food st)) eqn:Hf;
    [ apply EQ_eq in Hf;
      apply tick_eat_returns with (nh := nh); try assumption;
      [ specialize (Hfair 0%nat); rewrite Nat.add_0_r in Hfair; exact Hfair
      | lia ]
    | apply EQ_neq in Hf;
      destruct (tick_move_result random 0%nat now p st nh Hc Hcol Hf)
        as [q [st2 [_ _]]];
      exists 0%nat; eexists; eexists; intros f _;
      rewrite (tick_move random f now p st nh) by
          (try assumption; apply EQ_neq; assumption);
      reflexivity ].
  all: destruct (tick_next_facts fuel0 now p st p1 st1 Hinv
                   (Ht fuel0 (Nat.le_refl fuel0)))
      as [Hinv1 [HN1 [Hah [Hlen1 [k Hk]]]]].
  - pose proof (ahead_bound st1 Hinv1). lia.
  - destruct (IH p1 st1) as [fuel1 [r Hloop]]; try assumption.
    + rewrite HN1; assumption.
    + lia.
    + intros j. rewrite HN1, Hk.
      replace (drawn p + 2 * k + 2 * j)%nat with (drawn p + 2 * (k + j))%nat
        by lia.
      apply Hfair.
    + rewrite HN1. lia.
    + exists (S (Nat.max fuel0 fuel1)), r. intros fuel' Hle.
      destruct fuel' as [| f]; [lia | ].
      cbn [loop]. rewrite E, (Ht f) by lia. simpl.
      apply Hloop. lia.
Qed.

Lemma reachable_gridSize p :
  reachable random p -> pageInv (fun st => gridSize st = 14) p.
Proof.
  apply reachable_inv.
  - intros fuel now q st q' st' c Hn H.
    destruct (tick_dir random fuel now q st q' st' c H) as [_ [_ E]].
    congruence.
  - intros g st _ H; exact H.
  - intros n st H; exact H.
  - intros d st _ H; exact H.
  - intros fuel i f j c _. reflexivity.
Qed.

Lemma step_returns :
  forall ts now ctx p,
    reachable random p ->
    (forall j, Fair random 14 (drawn p + 2 * j)) ->
    (forall st, stateRef p = Some st ->
                Z.of_nat (length (snake st)) + 14 < 196) ->
    exists fuel p', forall fuel', (fuel <= fuel')%nat ->
                    step random fuel' ts now ctx p = Ret p'.
Proof.
  intros ts now ctx p Hr Hfair Hroom. unfold step.
  destruct (stateRef p) as [st | ] eqn:Hst;
    [ | exists 0%nat, p; reflexivity].
  destruct ctx; cbn [negb]; [ | exists 0%nat, p; reflexivity].
  cbn [running gameOver set_lastTsRef].
  destruct (running p && negb (gameOver p));
    [ | exists 0%nat; eexists; reflexivity].
  pose proof (reachable_StrongInv random p Hr st Hst) as Hinv.
  pose proof (reachable_gridSize p Hr st Hst) as HN.
  match goal with
  | |- context [loop random _ now ?q ?s] =>
      assert (StrongInv s) as Hinv0 by exact Hinv;
      assert (gridSize s = 14) as HN0 by exact HN;
      assert (length (snake s) = length (snake st)) as Hlen0 by reflexivity;
      assert (drawn q = drawn p) as Hdr0 by reflexivity;
      pose proof (ahead_bound s Hinv0) as Hb;
      destruct (loop_returns now 13 q s) as [fuel [[q' st'] Hl]]
  end; try assumption.
  - rewrite HN0. lia.
  - rewrite HN0 in Hb. cbn [Z.of_nat Pos.of_succ_nat Pos.succ]. lia.
  - rewrite HN0, Hdr0. exact Hfair.
  - rewrite HN0, Hlen0. specialize (Hroom st eq_refl). lia.
  - exists fuel. eexists. intros fuel' Hle. rewrite (Hl fuel' Hle).
    reflexivity.
Qed.

(** X10: every event is handled: on a reachable page whose snake leaves more
    than 14 cells free, with a random source that is fair from every later
    position, every handler comes back, whatever the clock says.  The
    catch-up loop of a frame ends because the snake moves straight within a
    frame and meets a wall after at most 13 moves. *)
Theorem every_event_returns :
  forall e p,
    reachable random p ->
    (forall j, Fair random 14 (drawn p + 2 * j)) ->
    (forall st, stateRef p = Some st ->
                Z.of_nat (length (snake st)) + 14 < 196) ->
    exists fuel p', forall fuel', (fuel <= fuel')%nat ->
                    handle random fuel' e p = Ret p'.
Proof.
  intros e p Hr Hfair Hroom.
  assert (Fair random 14 (drawn p)) as Hf0
    by (specialize (Hfair 0%nat); rewrite Nat.add_0_r in Hfair; exact Hfair).
  destruct e; cbn [handle].
  - destruct (reset_returns random target clientWidth clientHeight
                (resizeCanvas target p)) as [fuel [q Hq]].
    { rewrite resizeCanvas_drawn. exact Hf0. }
    exists fuel. eexists. intros fuel' Hle. unfold start.
    rewrite (Hq fuel' Hle). reflexivity.
  - destruct (reset_returns random target clientWidth clientHeight p Hf0)
      as [fuel [q Hq]].
    exists fuel. eexists. intros fuel' Hle. unfold start.
    rewrite (Hq fuel' Hle). reflexivity.
  - exists 0%nat. eexists. reflexivity.
  - exists 0%nat. eexists. reflexivity.
  - exists 0%nat. eexists. reflexivity.
  - exists 0%nat. eexists. reflexivity.
  - apply step_returns; assumption.
Qed.

End Frames.

(** ** The sweeping source is fair from every even position *)

Lemma sweep_sample (n : nat) :
  sample sweep 14 (2 * n) =
  {| x := Z.of_nat (n mod 14); y := Z.of_nat ((n / 14) mod 14) |}.
Proof.
  assert (forall a : nat, Qfloor ((Z.of_nat a # 14) * inject_Z 14) = Z.of_nat a)
    as Hfloor.
  { intros a. unfold Qmult, inject_Z, Qfloor. cbn [Qnum Qden].
    change (Z.pos (14 * 1)) with 14. apply Z.div_mul. discriminate. }
  unfold sample, sweep.
  assert (Nat.even (2 * n) = true) as E1
    by (rewrite Nat.even_mul; reflexivity).
  assert (Nat.even (S (2 * n)) = false) as E2
    by (rewrite Nat.even_succ, <- Nat.negb_even, E1; reflexivity).
  assert ((2 * n) / 2 = n)%nat as D1
    by (rewrite Nat.mul_comm; apply Nat.div_mul; discriminate).
  assert (S (2 * n) / 2 = n)%nat as D2.
  { symmetry. apply Nat.div_unique with (r := 1%nat); lia. }
  rewrite E1, E2, D1, D2, !Hfloor. reflexivity.
Qed.

Lemma sweep_fair_even (m : nat) : Fair sweep 14 (2 * m).
Proof.
  intros [cx cy] [Hx Hy]. cbn [x y] in Hx, Hy.
  set (t := (Z.to_nat cx + 14 * Z.to_nat cy)%nat).
  set (n := (196 * (m / 196 + 1) + t)%nat).
  assert (m <= n)%nat as Hmn.
  { pose proof (Nat.div_mod_eq m 196) as Hdm.
    pose proof (Nat.mod_upper_bound m 196). unfold n. lia. }
  exists (n - m)%nat.
  replace (2 * m + 2 * (n - m))%nat with (2 * n)%nat by lia.
  rewrite sweep_sample.
  assert (n mod 14 = Z.to_nat cx)%nat as M1.
  { symmetry.
    apply Nat.mod_unique with (q := (14 * (m / 196 + 1) + Z.to_nat cy)%nat);
      unfold n, t; lia. }
  assert (n / 14 = 14 * (m / 196 + 1) + Z.to_nat cy)%nat as D1.
  { symmetry. apply Nat.div_unique with (r := Z.to_nat cx); unfold n, t; lia. }
  assert ((n / 14) mod 14 = Z.to_nat cy)%nat as M2.
  { rewrite D1. symmetry.
    apply Nat.mod_unique with (q := (m / 196 + 1)%nat); lia. }
  rewrite M1, M2. f_equal; lia.
Qed.

(** ** Writing the best score and reading it back *)
















(** ** Canvas sizing and drawing *)

Ltac name_max a b :=
  let m := fresh "m" in
  let H := fresh "Hm" in
  pose proof (Q.max_spec a b) as H; set (m := Qmax a b) in *;
  destruct H as [[? ?] | [? ?]].

Ltac name_min a b :=
  let m := fresh "m" in
  let H := fresh "Hm" in
  pose proof (Q.min_spec a b) as H; set (m := Qmin a b) in *;
  destruct H as [[? ?] | [? ?]].

(** Division by a constant, for [lra]. *)
Ltac halves :=
  unfold Qdiv in *;
  change (/ 2)%Q with (1 # 2)%Q in *; change (/ 300)%Q with (1 # 300)%Q in *.

(** X12: [clamp] keeps a number between its bounds: the result is never below
    the lower bound, never above the upper bound when the bounds are in
    order, the number itself when it lies between them, and it grows with
    the number.  With the bounds out of order the lower bound wins. *)
Theorem clamp_between_bounds :
  forall n lo hi : Q,
    (lo <= clamp n lo hi)%Q /\
    (lo <= hi -> clamp n lo hi <= hi)%Q /\
    (lo <= n -> n <= hi -> clamp n lo hi == n)%Q /\
    (hi < lo -> clamp n lo hi == lo)%Q /\
    (forall n', n <= n' -> clamp n lo hi <= clamp n' lo hi)%Q.
Proof.
  intros n lo hi. unfold clamp. repeat split.
  - apply Q.le_max_l.
  - intros H. name_min hi n; name_max lo m; lra.
  - intros H1 H2. name_min hi n; name_max lo m; lra.
  - intros H. name_min hi n; name_max lo m; lra.
  - intros n' H. name_min hi n; name_max lo m; name_min hi n';
      name_max lo m1; lra.
Qed.

Lemma ratio_clamped (r : option Q) :
  (1 <= clamp (ratioOr1 r) 1 2 /\ clamp (ratioOr1 r) 1 2 <= 2)%Q.
Proof.
  unfold clamp. name_min 2%Q (ratioOr1 r); name_max 1%Q m; lra.
Qed.

(** X13: the canvas [resizeCanvas] lays out: cells are at least 8 wide, the CSS
    side is a whole number of cells, the pixel side lies between the CSS
    side and twice the CSS side, the canvas fits its parent with less than
    one column to spare as soon as the parent is 8 cells wide, and the cell
    size written into the game state is the one of the layout. *)
Theorem canvas_layout_fits :
  forall (target : Z) (devicePixelRatio : option Q) (p : Page) (N : Z),
    N = match stateRef p with
        | Some st => gridSize st
        | None => 14
        end ->
    0 < N ->
    let L := canvasLayout target devicePixelRatio p in
    8 <= layoutCell L /\
    cssSize L = layoutCell L * N /\
    cssSize L <= pixelSize L <= 2 * cssSize L /\
    (8 * N <= target -> cssSize L <= target < cssSize L + N) /\
    (target < 8 * N -> cssSize L = 8 * N) /\
    (forall st, stateRef p = Some st ->
                stateRef (resizeCanvas target p)
                = Some (set_cell (layoutCell L) st)).
Proof.
  intros target r p N HN Hpos L.
  assert (layoutCell L = Z.max 8 (target / N)) as Hcell
    by (unfold L, canvasLayout; cbn [layoutCell]; rewrite <- HN; reflexivity).
  assert (cssSize L = layoutCell L * N) as Hcss
    by (unfold L, canvasLayout; cbn [layoutCell cssSize]; rewrite <- HN;
        reflexivity).
  assert (pixelSize L =
          Qfloor (inject_Z (cssSize L) * clamp (ratioOr1 r) 1 2)) as Hpix
    by reflexivity.
  assert (N * (target / N) <= target < N * (target / N) + N) as Hdiv.
  { pose proof (Z.mul_div_le target N Hpos).
    pose proof (Z.mul_succ_div_gt target N Hpos). lia. }
  split; [lia | ]. split; [assumption | ].
  assert (0 <= cssSize L) as Hnonneg by nia.
  split; [ | split; [ | split]].
  - destruct (ratio_clamped r) as [H1 H2]. rewrite Hpix.
    set (d := clamp (ratioOr1 r) 1 2) in *.
    assert (0 <= inject_Z (cssSize L))%Q as Hq
      by (change 0%Q with (inject_Z 0); rewrite <- Zle_Qle; assumption).
    split.
    + rewrite <- (Qfloor_Z (cssSize L)) at 1. apply Qfloor_resp_le.
      setoid_replace (inject_Z (cssSize L)) with (inject_Z (cssSize L) * 1)%Q
        at 1 by ring.
      apply Qmult_le_compat_nonneg; split; try lra.
    + replace (2 * cssSize L) with (Qfloor (inject_Z (2 * cssSize L)))
        by apply Qfloor_Z.
      apply Qfloor_resp_le. rewrite inject_Z_mult.
      setoid_replace (inject_Z 2 * inject_Z (cssSize L))%Q
        with (inject_Z (cssSize L) * 2)%Q by ring.
      apply Qmult_le_compat_nonneg; split; try lra.
  - intros H. assert (8 <= target / N) by (apply Z.div_le_lower_bound; lia).
    rewrite Hcss, Hcell, Z.max_r by lia. lia.
  - intros H. assert (target / N < 8) by (apply Z.div_lt_upper_bound; lia).
    rewrite Hcss, Hcell, Z.max_l by lia. reflexivity.
  - intros st Hst. unfold resizeCanvas. rewrite Hst.
    rewrite Hcell, HN, Hst. reflexivity.
Qed.

(** X14: [roundRect] never draws overlapping corners: the radius it uses is not
    negative, is at most the radius asked for when that is not negative,
    and two of it fit in each side of a rectangle of non-negative size. *)
Theorem corner_radius_fits :
  forall w h r : Q,
    (0 <= cornerRadius w h r)%Q /\
    (0 <= r -> cornerRadius w h r <= r)%Q /\
    (0 <= w -> 2 * cornerRadius w h r <= w)%Q /\
    (0 <= h -> 2 * cornerRadius w h r <= h)%Q.
Proof.
  intros w h r. unfold cornerRadius.
  name_min (w / 2)%Q (h / 2)%Q; name_min r m; name_max 0%Q m0;
    repeat split; intros; halves; lra.
Qed.

Lemma segments_scale_bounds (over : bool) (since : option Q) (now : Q)
      (i : nat) :
  (0 <= segmentScale over since now i /\
   segmentScale over since now i <= 1)%Q.
Proof.
  unfold segmentScale.
  destruct over; [ | lra]. destruct since as [t | ]; [ | lra].
  name_min 1%Q ((now - t - inject_Z (Z.of_nat i) * 60) / 300)%Q;
    name_max 0%Q m; halves; lra.
Qed.

(** X15: the snake shrinks away from the head on: the scale of a segment lies
    between 0 and 1, a segment further from the head is never smaller than
    one nearer to it, and segment [i] keeps its full size until 60 i ms
    after the game is over and is gone 300 ms later.  While the game is on
    every segment has its full size. *)
Theorem segments_shrink_in_order :
  forall (over : bool) (since : option Q) (now : Q) (i : nat),
    (0 <= segmentScale over since now i /\
     segmentScale over since now i <= 1)%Q /\
    (forall j, (i <= j)%nat ->
               (segmentScale over since now i <= segmentScale over since now j)%Q) /\
    (over = false -> segmentScale over since now i = 1%Q) /\
    (forall t, over = true -> since = Some t ->
               ((now - t <= inject_Z (Z.of_nat i) * 60 ->
                 segmentScale over since now i == 1) /\
                (inject_Z (Z.of_nat i) * 60 + 300 <= now - t ->
                 segmentScale over since now i == 0))%Q).
Proof.
  intros over since now i. unfold segmentScale.
  destruct over; [ | repeat split; try lra; try discriminate].
  destruct since as [t | ]; [ | repeat split; try lra; try discriminate].
  split; [ | split; [ | split; [discriminate | ]]].
  - apply (segments_scale_bounds true (Some t) now i).
  - intros j Hij.
    assert (inject_Z (Z.of_nat i) <= inject_Z (Z.of_nat j))%Q as Hq
      by (rewrite <- Zle_Qle; lia).
    set (qi := inject_Z (Z.of_nat i)) in *.
    set (qj := inject_Z (Z.of_nat j)) in *.
    name_min 1%Q ((now - t - qi * 60) / 300)%Q; name_max 0%Q m;
      name_min 1%Q ((now - t - qj * 60) / 300)%Q; name_max 0%Q m1;
      halves; lra.
  - intros t' _ E. injection E as <-.
    set (qi := inject_Z (Z.of_nat i)) in *.
    split; intros H;
      name_min 1%Q ((now - t - qi * 60) / 300)%Q; name_max 0%Q m;
      halves; lra.
Qed.

(** X16: every segment is drawn inside its own cell: for a cell size that is
    not negative, whenever and wherever the segment is drawn, its
    rectangle lies within the square of its grid cell and its sides are
    not negative. *)
Theorem segment_stays_in_its_cell :
  forall (cell : Z) (s : Vec) (over : bool) (since : option Q) (now : Q)
         (i : nat),
    0 <= cell ->
    let '(rx, ry, w, h) :=
      segmentRect cell s (segmentScale over since now i) in
    (0 <= w /\ 0 <= h /\
     inject_Z (x s) * inject_Z cell <= rx /\
     rx + w <= inject_Z (x s) * inject_Z cell + inject_Z cell /\
     inject_Z (y s) * inject_Z cell <= ry /\
     ry + h <= inject_Z (y s) * inject_Z cell + inject_Z cell)%Q.
Proof.
  intros cell s over since now i Hcell.
  destruct (segments_scale_bounds over since now i) as [H0 H1].
  unfold segmentRect.
  set (sc := segmentScale over since now i) in *.
  set (a := (inject_Z (x s) * inject_Z cell)%Q).
  set (b := (inject_Z (y s) * inject_Z cell)%Q).
  assert (0 <= inject_Z cell)%Q as Hc
    by (change 0%Q with (inject_Z 0); rewrite <- Zle_Qle; assumption).
  set (c := inject_Z cell) in *.
  assert (0 <= Qmax 0 (c - 3) * sc /\ Qmax 0 (c - 3) * sc <= c)%Q as [Hw0 Hw1].
  { name_max 0%Q (c - 3)%Q.
    - split; [apply Qmult_le_0_compat; lra | ].
      apply Qle_trans with (m * 1)%Q; [ | lra].
      apply Qmult_le_compat_nonneg; split; lra.
    - split; [apply Qmult_le_0_compat; lra | ].
      apply Qle_trans with (m * 1)%Q; [ | lra].
      apply Qmult_le_compat_nonneg; split; lra. }
  set (w := (Qmax 0 (c - 3) * sc)%Q) in *.
  halves. repeat split; lra.
Qed.

(** ** While the game is over *)

Lemma waits_refl p : waits p p.
Proof.
  unfold waits. repeat split; auto.
  intros st H. exists st. repeat split; assumption.
Qed.

Lemma waits_trans p q r : waits p q -> waits q r -> waits p r.
Proof.
  unfold waits.
  intros [H1 [H2 [H3 [H4 [H5 [H6 [H7 H8]]]]]]]
         [K1 [K2 [K3 [K4 [K5 [K6 [K7 K8]]]]]]].
  repeat split; try congruence.
  - auto.
  - intros st Hst. destruct (H8 st Hst) as [st1 [E1 F1]].
    destruct (K8 st1 E1) as [st2 [E2 F2]].
    exists st2. split; [assumption | ].
    destruct F1 as [? [? [? [? [? ?]]]]]. destruct F2 as [? [? [? [? [? ?]]]]].
    repeat split; congruence.
Qed.

(** A page that differs from [p] in the parts of the game state that may
    change while the game is over. *)
Lemma waits_state p st st' :
  stateRef p = Some st ->
  gridSize st' = gridSize st -> snake st' = snake st -> dir st' = dir st ->
  food st' = food st -> score st' = score st -> tickMs st' = tickMs st ->
  waits p (set_stateRef (Some st') p).
Proof.
  intros Hst H1 H2 H3 H4 H5 H6. unfold waits. cbn.
  repeat split; try reflexivity.
  - congruence.
  - intros s E. exists st'. assert (s = st) as -> by congruence.
    repeat split; assumption.
Qed.

Lemma waits_touch p t : waits p (set_touchStartRef t p).
Proof.
  unfold waits. cbn. repeat split; auto.
  intros st H. exists st. repeat split; assumption.
Qed.

(** An event that starts no game, on a page whose game is over. *)
Lemma quiet_event_waits (random : nat -> Q) fuel e p :
  gameOver p = true -> starts e = false ->
  exists p', handle random fuel e p = Ret p' /\ waits p p'.
Proof.
  intros Hover Hq. destruct e; try discriminate; cbn [handle].
  5: { assert (step random fuel ts now ctx p = Ret p \/
               step random fuel ts now ctx p = Ret (set_lastTsRef ts p)) as H.
       { unfold step. destruct (stateRef p) as [st | ]; [ | left; reflexivity].
         destruct ctx; cbn [negb]; [ | left; reflexivity].
         cbn [running gameOver set_lastTsRef]. rewrite Hover.
         rewrite Bool.andb_false_r. right; reflexivity. }
       destruct H as [-> | ->]; eexists; (split; [reflexivity | ]);
         [apply waits_refl | ].
       unfold waits. cbn. repeat split; auto.
       intros s E. exists s. repeat split; assumption. }
  all: eexists; (split; [reflexivity | ]).
  - unfold resizeCanvas. destruct (stateRef p) as [st | ] eqn:Hst;
      [ | apply waits_refl].
    apply (waits_state p st); [assumption | reflexivity ..].
  - unfold onKey. destruct (getDirForCode code) as [d | ]; [ | apply waits_refl].
    destruct (stateRef p) as [st | ] eqn:Hst; [ | apply waits_refl].
    apply (waits_state p st); [assumption | ..];
      destruct (negb (opposite d (dir st))); reflexivity.
  - destruct touch; [apply waits_touch | apply waits_refl].
  - unfold handleTouchEnd. destruct (touchStartRef p); [ | apply waits_refl].
    destruct touch; [ | apply waits_refl].
    destruct (swipeDirection _ _) as [d | ]; [ | apply waits_touch].
    destruct (stateRef p) as [st | ] eqn:Hst; [ | apply waits_touch].
    destruct (negb (opposite d (dir st))); [ | apply waits_touch].
    apply (waits_trans p (set_stateRef (Some (set_grace 250%Q (set_nextDir d st))) p));
      [ | apply waits_touch].
    apply (waits_state p st); [assumption | reflexivity ..].
Qed.

Lemma quiet_events_wait (random : nat -> Q) fuel es :
  forall p,
    gameOver p = true ->
    forallb (fun e => negb (starts e)) es = true ->
    exists p', handleAll random fuel es p = Ret p' /\ waits p p'.
Proof.
  induction es as [| e es IH]; intros p Hover Hq.
  - exists p. split; [reflexivity | apply waits_refl].
  - cbn [forallb] in Hq. apply Bool.andb_true_iff in Hq. destruct Hq as [He Hes].
    apply Bool.negb_true_iff in He.
    destruct (quiet_event_waits random fuel e p Hover He) as [q [Hq Wq]].
    assert (gameOver q = true) as Hoq
      by (destruct Wq as [_ [E _]]; congruence).
    destruct (IH q Hoq Hes) as [r [Hr Wr]].
    exists r. split; [ | apply (waits_trans p q r); assumption].
    cbn [handleAll]. rewrite Hq. exact Hr.
Qed.

(** X17: nothing moves while the game is over, and the restart takes the
    accumulator along.  From a page whose game is over, frames, keys,
    touches and resizes in any number and order all return and leave the
    game over, with snake, direction, food, score, tick interval, best
    score and accumulator as they were; when the restart timer then fires,
    the new game is running from the initial configuration, with the best
    score kept and with the time that was left in the accumulator when the
    game ended. *)
Theorem game_over_waits_for_the_restart (random : nat -> Q) :
  forall es fuel p,
    gameOver p = true ->
    forallb (fun e => negb (starts e)) es = true ->
    exists p',
      handleAll random fuel es p = Ret p' /\
      gameOver p' = true /\ waits p p' /\
      (forall fuel' t w h p'',
          handle random fuel' (RestartTimer t w h) p' = Ret p'' ->
          running p'' = true /\ gameOver p'' = false /\
          gameOverAtRef p'' = None /\
          best p'' = best p /\ accRef p'' = accRef p /\
          exists c f, stateRef p'' = Some (resetState c f)).
Proof.
  intros es fuel p Hover Hq.
  destruct (quiet_events_wait random fuel es p Hover Hq) as [p' [Hp' W]].
  exists p'. split; [assumption | ].
  assert (gameOver p' = true) as Hover'
    by (destruct W as [_ [E _]]; congruence).
  split; [assumption | ]. split; [assumption | ].
  intros fuel' t w h p'' H. cbn [handle] in H. unfold start in H.
  destruct (reset random fuel' t w h p') as [q | | ] eqn:Hr; simpl in H;
    try discriminate.
  inversion H; subst; clear H.
  apply reset_result in Hr. destruct Hr as [f [i [_ ->]]].
  destruct W as [_ [_ [Hb [Ha _]]]].
  cbn. repeat split.
  - rewrite <- Hb. unfold resizeCanvas. destruct (stateRef p'); reflexivity.
  - rewrite <- Ha. unfold resizeCanvas. destruct (stateRef p'); reflexivity.
  - eexists. eexists. reflexivity.
Qed.

(** * Concrete runs of the further properties *)

Example mountedPage_reachable : reachable sweep mountedPage.
Proof.
  apply (play_reachable 1 [Mount 300 280 280; Frame 16 16 true]
           (initialPage 0 0)); [apply reach_init | vm_compute; reflexivity].
Qed.

Example turnedPage_reachable : reachable sweep turnedPage.
Proof.
  apply (play_reachable 1 [Mount 300 280 280; Frame 16 16 true;
                           Frame 216 216 true; KeyDown "ArrowUp"]
           (initialPage 0 0)); [apply reach_init | vm_compute; reflexivity].
Qed.

Example fedPage_reachable : reachable sweep fedPage.
Proof.
  apply (play_reachable 20 eatingGame (initialPage 0 0));
    [apply reach_init | vm_compute; reflexivity].
Qed.

(** X1 after the snake has eaten once: three cells, score 1. *)
Lemma score_counts_growth_witness :
  length (snake fedState) = 3%nat /\
  score fedState = Z.of_nat (length (snake fedState)) - 2 /\
  0 <= score fedState <= 194.
Proof.
  split; [reflexivity | ].
  apply (score_counts_growth sweep fedPage fedPage_reachable fedState).
  reflexivity.
Defined.

(** X2 on the snake that has turned and eaten. *)
Lemma snake_is_a_path_witness : Chain (snake fedState).
Proof.
  apply (snake_is_a_path sweep fedPage fedPage_reachable fedState).
  reflexivity.
Defined.

(** X6 on the page of the fed snake one frame later, when it has met the
    left wall. *)
Lemma game_over_is_settled_witness :
  exists p,
    handle sweep 5 (Frame 2563 2570 true) fedPage = Ret p /\
    gameOver p = true /\
    (gameOver p = true -> running p = false) /\
    (gameOver p = true <-> gameOverAtRef p <> None) /\
    (forall st, stateRef p = Some st -> gameOver p = true ->
                (inject_Z (score st) <= best p)%Q).
Proof.
  eexists. split; [vm_compute; reflexivity | ].
  split; [reflexivity | ].
  apply (game_over_is_settled sweep).
  apply (reach_event sweep fedPage 5 (Frame 2563 2570 true));
    [exact fedPage_reachable | vm_compute; reflexivity].
Defined.

(** X7 on the frame that ends the game of the fed snake: the best score
    goes from 0 to 1. *)
Lemma best_never_decreases_witness :
  exists p,
    handle sweep 5 (Frame 2563 2570 true) fedPage = Ret p /\
    (best p == 1)%Q /\ (best fedPage <= best p)%Q.
Proof.
  eexists. split; [vm_compute; reflexivity | ].
  split; [reflexivity | ].
  apply (best_never_decreases sweep fedPage 5 (Frame 2563 2570 true));
    [exact fedPage_reachable | vm_compute; reflexivity].
Defined.

(** X8 on the last frame of the short game: 200 ms after the up key the
    timer is down from 250 to 50. *)
Lemma frame_lowers_grace_witness :
  exists p,
    step sweep 5 416 416 true turnedPage = Ret p /\
    stateRef p = Some shortGameState /\
    (0 <= grace shortGameState /\ grace shortGameState <= grace turnedState)%Q.
Proof.
  eexists. split; [vm_compute; reflexivity | ].
  split; [reflexivity | ].
  eapply (frame_lowers_grace sweep 5 416 416 true turnedPage _ turnedState
           shortGameState turnedPage_reachable).
  - vm_compute; reflexivity.
  - reflexivity.
  - reflexivity.
  - unfold Qle; simpl; lia.
Defined.


(** X10 on a frame two seconds late, on the sweeping source. *)
Lemma every_event_returns_witness :
  exists fuel p', forall fuel', (fuel <= fuel')%nat ->
                  handle sweep fuel' (Frame 2016 2020 true) mountedPage = Ret p'.
Proof.
  apply (every_event_returns sweep (Frame 2016 2020 true) mountedPage
           mountedPage_reachable).
  - intros j. change (drawn mountedPage) with 2%nat.
    replace (2 + 2 * j)%nat with (2 * (1 + j))%nat by lia.
    apply sweep_fair_even.
  - intros st E. inversion E; subst. cbn. lia.
Defined.


(** X13 on a parent 300 wide, at a pixel ratio of 1.5: cells of 21, a CSS
    side of 294 and 441 pixels a side. *)
Lemma canvas_layout_fits_witness :
  canvasLayout 300 (Some (3 # 2)%Q) freshPage
  = {| layoutCell := 21; cssSize := 294; pixelSize := 441 |} /\
  let L := canvasLayout 300 (Some (3 # 2)%Q) freshPage in
  8 <= layoutCell L /\
  cssSize L = layoutCell L * 14 /\
  cssSize L <= pixelSize L <= 2 * cssSize L /\
  (8 * 14 <= 300 -> cssSize L <= 300 < cssSize L + 14) /\
  (300 < 8 * 14 -> cssSize L = 8 * 14) /\
  (forall st, stateRef freshPage = Some st ->
              stateRef (resizeCanvas 300 freshPage)
              = Some (set_cell (layoutCell L) st)).
Proof.
  split; [vm_compute; reflexivity | ].
  apply (canvas_layout_fits 300 (Some (3 # 2)%Q) freshPage 14);
    [reflexivity | lia].
Defined.

(** X16 on the head of a snake at [(7, 7)], cells of 20, 150 ms after the
    game is over: the head is drawn at half its size. *)
Lemma segment_stays_in_its_cell_witness :
  (segmentScale true (Some 1000%Q) 1150%Q 0 == 1 # 2)%Q /\
  let '(rx, ry, w, h) :=
    segmentRect 20 {| x := 7; y := 7 |}
                (segmentScale true (Some 1000%Q) 1150%Q 0) in
  (0 <= w /\ 0 <= h /\
   inject_Z 7 * inject_Z 20 <= rx /\
   rx + w <= inject_Z 7 * inject_Z 20 + inject_Z 20 /\
   inject_Z 7 * inject_Z 20 <= ry /\
   ry + h <= inject_Z 7 * inject_Z 20 + inject_Z 20)%Q.
Proof.
  split; [reflexivity | ].
  apply (segment_stays_in_its_cell 20 {| x := 7; y := 7 |} true
           (Some 1000%Q) 1150%Q 0%nat).
  lia.
Defined.

(** X17 on the page of the dead snake: two frames, a key, a resize and a
    touch later the restart starts a game with 437 ms in the accumulator. *)
Lemma game_over_waits_for_the_restart_witness :
  exists p',
    handleAll sweep 5 [ Frame 3016 3020 true; KeyDown "ArrowUp"; Resize 400;
                        TouchStart (Some (10%Q, 10%Q)); Frame 3032 3040 true ]
              deadPage = Ret p' /\
    gameOver p' = true /\ waits deadPage p' /\
    (forall fuel' t w h p'',
        handle sweep fuel' (RestartTimer t w h) p' = Ret p'' ->
        running p'' = true /\ gameOver p'' = false /\
        gameOverAtRef p'' = None /\
        best p'' = best deadPage /\ accRef p'' = accRef deadPage /\
        exists c f, stateRef p'' = Some (resetState c f)).
Proof.
  apply (game_over_waits_for_the_restart sweep); reflexivity.
Defined.
